(** * hmetrics: label-keyed metric maps and the Prometheus text encoder

    A shallow embedding of package [hmetrics]:
    - [NewBuckets], the label-keyed maps, [RegisterComplexMap] and
      [complexMap.Add] (the metric-map source file);
    - [translateMetricsToPrometheusTextFormat], [translateMetrics],
      [writeEntry], [writeLabels] and [escaper] (prometheus.go).

    Conventions of the embedding:
    - [float64] is Rocq's primitive IEEE-754 binary64 type, so the
      comparisons of the source ([<=], [>], [!=]) keep their behaviour on
      NaN and on signed zeros;
    - [uint64] and [int64] values are [Z] with the wrap-around written out;
    - a [bytes.Buffer] is the string written so far, each writer maps the
      old contents to the new ones;
    - a run-time panic is the [Panic] result;
    - Go maps are [gmap]s;
    - the calls into the external metric engine are recorded as a trace. *)

From Stdlib Require Import ZArith Ascii String PrimFloat FloatOps SpecFloat.
From stdpp Require Import gmap strings list fin_maps sorting pretty.

Local Open Scope Z_scope.

(** ** Results of code that may panic *)

Inductive result (A : Type) : Type :=
| Ok (a : A)
| Panic (msg : string).
Arguments Ok {A} a.
Arguments Panic {A} msg.

Global Instance result_ret : MRet result := λ A a, Ok a.

Global Instance result_bind : MBind result := λ A B k r,
  match r with
  | Ok a => k a
  | Panic msg => Panic msg
  end.

Definition panics {A : Type} (r : result A) : Prop := ∃ msg, r = Panic msg.

(** ** Numbers of the Go runtime *)

Abbreviation float64 := PrimFloat.float.

Definition uint64_modulus : Z := 2 ^ 64.

(** [a + b] on [uint64]. *)
Definition uint64_add (a b : Z) : Z := (a + b) mod uint64_modulus.

(** The conversion [float64(n)] of an integer: round to nearest, ties to
    even, at 53 bits of precision. *)
Definition float64_of_Z (n : Z) : float64 :=
  SF2Prim (binary_normalize 53 1024 n 0 false).

(** [math.Inf(+1)] and [math.IsInf(f, +1)]. *)
Definition Inf : float64 := PrimFloat.infinity.
Definition IsInf (f : float64) : bool := PrimFloat.eqb f PrimFloat.infinity.

(** [time.Duration] is a count of nanoseconds in an [int64];
    [Duration.Seconds] splits it at [time.Second] with Go's truncating
    division and adds the two parts as floats. *)
Definition Second : Z := 1000000000.

Definition Seconds (d : Z) : float64 :=
  let sec := Z.quot d Second in
  let nsec := Z.rem d Second in
  PrimFloat.add (float64_of_Z sec)
                (PrimFloat.div (float64_of_Z nsec) 1e9%float).

(** ** NewBuckets *)

Module Buckets.

(** The loop [for i := range buckets { buckets[i] = start; start *= factor }]
    threads the slice and the running [start].  [make] gives a slice of
    [count] zeros; the limits of the allocator are not part of the model. *)
Definition fill_step (factor : float64) (st : list float64 * float64) (i : nat)
  : list float64 * float64 :=
  (<[i := st.2]> st.1, PrimFloat.mul st.2 factor).

Definition fill (buckets : list float64) (start factor : float64) : list float64 :=
  (foldl (fill_step factor) (buckets, start) (seq 0 (length buckets))).1.

Definition NewBuckets (start factor : float64) (count : Z) : result (list float64) :=
  if count <? 1 then Panic "NewBuckets needs a positive count"
  else if PrimFloat.leb start 0%float then Panic "NewBuckets needs a positive start value"
  else if PrimFloat.leb factor 1%float then Panic "NewBuckets needs a factor greater than 1"
  else Ok (fill (replicate (Z.to_nat count) 0%float) start factor).

(** The [i]-th term of the sequence [start, start*factor, ...], each term
    obtained from the previous one by one float multiplication. *)
Fixpoint geometric (start factor : float64) (i : nat) : float64 :=
  match i with
  | O => start
  | S i' => PrimFloat.mul (geometric start factor i') factor
  end.

End Buckets.

(** ** Sorting, as package [sort] does it *)

Section Sorting.
Context {A : Type} (less : A → A → bool).

(** One round of [insertionSort]: the new element [x] stands after the
    sorted prefix and is swapped leftwards while [less x prev].  The
    prefix is held back to front, its last element first. *)
Fixpoint insert_back (x : A) (rprefix : list A) : list A :=
  match rprefix with
  | [] => [x]
  | y :: r => if less x y then y :: insert_back x r else x :: y :: r
  end.

Definition insertionSort (data : list A) : list A :=
  reverse (foldl (λ rprefix x, insert_back x rprefix) [] data).
End Sorting.

(** [sort.SliceStable(ms, less)]: package [sort] sorts runs of the slice by
    insertion and merges them; under a comparison that is a strict weak
    order, as [snapshot_less] below, every stable sort ends with the same
    slice as the insertion sort.  The result is the new contents of the
    caller's slice, which Go sorts in place. *)
Definition SliceStable {A : Type} (less : A → A → bool) (data : list A) : list A :=
  insertionSort less data.

(** [sort.Strings]: ascending by Go's [<] on strings, the bytewise
    lexicographic order. *)
Definition sort_Strings (x : list string) : list string :=
  insertionSort String.ltb x.

(** ** Iterating over a Go map *)

(** The order in which Go walks a map is unspecified: a [MapOrder] is one
    choice of it, any rearrangement of the keys. *)
Record MapOrder : Type := {
  shuffle : list string → list string;
  shuffle_perm : ∀ l, shuffle l ≡ₚ l
}.

Definition map_order_id : MapOrder :=
  {| shuffle := λ l, l; shuffle_perm := λ l, reflexivity l |}.

Definition map_order_rev : MapOrder :=
  {| shuffle := reverse; shuffle_perm := reverse_Permutation |}.

(** [maps.Keys(m)]. *)
Definition Keys {V : Type} (o : MapOrder) (m : gmap string V) : list string :=
  shuffle o (map_to_list m).*1.

(** ** Metric snapshots *)

(** [protos.MetricType], the enumeration of the engine's protocol: the
    three types the encoder knows and [INVALID], its zero value. *)
Inductive MetricType : Set :=
| MetricType_INVALID
| MetricType_COUNTER
| MetricType_GAUGE
| MetricType_HISTOGRAM.

(** [metrics.MetricSnapshot]. *)
Record MetricSnapshot : Type := {
  Id : Z;                          (* uint64 *)
  Name : string;
  Type_ : MetricType;
  Help : string;
  Labels : gmap string string;
  Value : float64;
  Bounds : list float64;
  Counts : list Z                  (* []uint64 *)
}.

(** ** The Prometheus text encoder (prometheus.go) *)

Definition nl : string := String "010"%char "".
Definition dquote : string := String "034"%char "".
Definition backslash : string := String "092"%char "".

Module Replacer.

(** [strings.NewReplacer(old1, new1, ...).Replace]: the replacements are
    made in the order they appear in the target string, without
    overlapping matches, the old strings compared in argument order.
    [skip] counts the bytes of a match still to be passed over. *)
Fixpoint replace (pairs : list (string * string)) (skip : nat) (s : string) : string :=
  match s with
  | EmptyString => EmptyString
  | String c s' =>
      match skip with
      | S k => replace pairs k s'
      | O =>
          match find (λ p : string * string, String.prefix p.1 s) pairs with
          | Some (old, new) => new +:+ replace pairs (String.length old - 1) s'
          | None => String c (replace pairs 0 s')
          end
      end
  end.

End Replacer.

Definition escaper_pairs : list (string * string) :=
  [ (backslash, backslash +:+ backslash);
    (nl, backslash +:+ "n");
    (dquote, backslash +:+ dquote) ].

(** [escaper.WriteString(w, s)] writes [escaper s]. *)
Definition escaper (s : string) : string := Replacer.replace escaper_pairs 0 s.

Section Encoder.
(** [strconv.FormatFloat(f, 'f', -1, 64)], of Go's standard library. *)
Variable FormatFloat : float64 → string.
(** The order in which the maps are walked. *)
Variable order : MapOrder.

(** The loop of [writeLabels] threads the buffer and [separator]. *)
Definition writeLabels_step (labels : gmap string string)
    (st : string * string) (l : string) : string * string :=
  let w := st.1 +:+ (st.2 +:+ l +:+ "=" +:+ dquote) in
  let w := w +:+ escaper (default "" (labels !! l)) in
  let w := w +:+ dquote in
  (w, ",").

Definition writeLabels (w : string) (labels : gmap string string)
    (extraLabelName : string) (extraLabelItem : float64) : string :=
  if (size labels =? 0)%nat && String.eqb extraLabelName "" then w
  else
    let sortedLabels := sort_Strings (Keys order labels) in
    let st := foldl (writeLabels_step labels) (w, "{") sortedLabels in
    let w :=
      if (0 <? String.length extraLabelName)%nat then
        let w := st.1 +:+ (st.2 +:+ extraLabelName +:+ "=" +:+ dquote) in
        w +:+ (FormatFloat extraLabelItem +:+ dquote)
      else st.1 in
    w +:+ "}".

Definition writeEntry (w : string) (metricName : string) (value : float64)
    (suffix : string) (labels : gmap string string)
    (extraLabelName : string) (extraLabelItem : float64) : string :=
  let w := w +:+ metricName in
  let w := if (0 <? String.length suffix)%nat then w +:+ suffix else w in
  let w := writeLabels w labels extraLabelName extraLabelItem in
  w +:+ (" " +:+ FormatFloat value +:+ nl).

(** The state of the loop over [metric.Bounds]. *)
Record bucket_state : Type := {
  bs_w : string;
  bs_count : Z;                  (* uint64 *)
  bs_hasInf : bool
}.

(** [for idx, bound := range metric.Bounds]; [metric.Counts[idx]] panics
    when [idx] is out of range. *)
Fixpoint buckets_loop (metric : MetricSnapshot) (labels : gmap string string)
    (idx : nat) (bounds : list float64) (st : bucket_state) : result bucket_state :=
  match bounds with
  | [] => Ok st
  | bound :: bounds' =>
      match Counts metric !! idx with
      | None => Panic "index out of range"
      | Some c =>
          let count := uint64_add (bs_count st) c in
          let w := writeEntry (bs_w st) (Name metric) (float64_of_Z count)
                     "_bucket" labels "le" bound in
          let hasInf := if IsInf bound then true else bs_hasInf st in
          buckets_loop metric labels (S idx) bounds'
            {| bs_w := w; bs_count := count; bs_hasInf := hasInf |}
      end
  end.

(** The body of the loop of [translateMetrics] for one snapshot. *)
Definition translate_series (w : string) (isHistogram : bool)
    (len_metrics idx : nat) (metric : MetricSnapshot) : result string :=
  let labels := Labels metric in          (* maps.Clone(metric.Labels) *)
  w ← (if isHistogram then
         st ← buckets_loop metric labels 0 (Bounds metric)
                {| bs_w := w; bs_count := 0; bs_hasInf := false |};
         match Counts metric !! length (Bounds metric) with
         | None => Panic "index out of range"
         | Some c =>
             let count := uint64_add (bs_count st) c in
             let w := bs_w st in
             let w := if negb (bs_hasInf st)
                      then writeEntry w (Name metric) (float64_of_Z count)
                             "_bucket" labels "le" Inf
                      else w in
             let w := writeEntry w (Name metric) (Value metric) "_sum" labels "" 0%float in
             let w := writeEntry w (Name metric) (float64_of_Z count) "_count" labels "" 0%float in
             Ok w
         end
       else
         Ok (writeEntry w (Name metric) (Value metric) "" labels "" 0%float));
  Ok (if isHistogram && negb (idx =? len_metrics - 1)%nat then w +:+ nl else w).

(** [for idx, metric := range metrics]. *)
Fixpoint series_loop (isHistogram : bool) (len_metrics idx : nat)
    (metrics : list MetricSnapshot) (w : string) : result string :=
  match metrics with
  | [] => Ok w
  | metric :: metrics' =>
      w ← translate_series w isHistogram len_metrics idx metric;
      series_loop isHistogram len_metrics (S idx) metrics' w
  end.

(** [translateMetrics]; the string it returns is [w.String()], the whole
    contents of the buffer after the call. *)
Definition translateMetrics (w : string) (metrics : list MetricSnapshot) : result string :=
  match metrics with
  | [] => Panic "index out of range"
  | metric :: _ =>
      let w := if (0 <? String.length (Help metric))%nat
               then w +:+ ("# HELP " +:+ Name metric +:+ " " +:+ Help metric +:+ nl)
               else w in
      let w := w +:+ ("# TYPE " +:+ Name metric) in
      let '(w, isHistogram) :=
        match Type_ metric with
        | MetricType_COUNTER => (w +:+ (" counter" +:+ nl), false)
        | MetricType_GAUGE => (w +:+ (" gauge" +:+ nl), false)
        | MetricType_HISTOGRAM => (w +:+ (" histogram" +:+ nl), true)
        | MetricType_INVALID => (w, false)
        end in
      w ← series_loop isHistogram (length metrics) 0 metrics w;
      Ok (w +:+ nl)
  end.

(** The comparison handed to [sort.SliceStable]. *)
Definition snapshot_less (a b : MetricSnapshot) : bool :=
  if negb (String.eqb (Name a) (Name b)) then String.ltb (Name a) (Name b)
  else Id a <? Id b.

(** [userMetrics[m.Name] = append(userMetrics[m.Name], m)]. *)
Definition group_step (userMetrics : gmap string (list MetricSnapshot))
    (m : MetricSnapshot) : gmap string (list MetricSnapshot) :=
  <[Name m := default [] (userMetrics !! Name m) ++ [m]]> userMetrics.

(** [translateMetricsToPrometheusTextFormat]: the pair of the caller's
    slice after the call (it is sorted in place) and the buffer. *)
Definition translateMetricsToPrometheusTextFormat (w : string)
    (ms : list MetricSnapshot) : list MetricSnapshot * result string :=
  let ms := SliceStable snapshot_less ms in
  let userMetrics := foldl group_step ∅ ms in
  let sortedUserMetrics := sort_Strings (Keys order userMetrics) in
  (ms, foldl (λ r m, w ← r; translateMetrics w (default [] (userMetrics !! m)))
             (Ok w) sortedUserMetrics).

End Encoder.

(** A formatter to run the encoder with.  It prints what
    [strconv.FormatFloat(f, 'f', -1, 64)] prints on the floats that hold an
    integer below [2^53] in magnitude, on the infinities and on NaN; on the
    other floats it prints the integer part only (Go prints the shortest
    decimal that reads back as [f]).  It serves the examples below, which
    use such values only; the theorems hold for every formatter. *)
Definition FormatFloat_integral (f : float64) : string :=
  match Prim2SF f with
  | S754_zero s => if s then "-0" else "0"
  | S754_infinity s => if s then "-Inf" else "+Inf"
  | S754_nan => "NaN"
  | S754_finite s m e =>
      (if s then "-" else "") +:+ pretty (Z.to_N (Z.shiftl (Z.pos m) e))
  end.

(** ** The label-keyed metric maps and the registry of complex maps *)

Record Label : Set := { Label_Name : string; Label_Item : string }.

(** What [metrics.RegisterMap] is called with. *)
Record MapConfig : Type := {
  cfg_type : MetricType;
  cfg_name : string;
  cfg_help : string;
  cfg_bounds : list float64       (* nil is the empty slice *)
}.

(** A [*metrics.MetricMap[Label]] is the position of its registration in
    the engine's list of maps. *)
Abbreviation MetricMap := nat (only parsing).

(** What the package does to the world outside a call's own variables:
    the mutex [mu], the package variable [complexMetrics], and the calls
    into the metric engine ([m.Get(l).Add(v)] and the like). *)
Inductive Event : Type :=
| EvLock
| EvUnlock
| EvLookup (name : string)                  (* complexMetrics[name] read *)
| EvStore (name : string)                   (* complexMetrics[name] = m *)
| EvRegisterMap (cfg : MapConfig)
| EvAdd (m : MetricMap) (l : Label) (v : float64)
| EvSet (m : MetricMap) (l : Label) (v : float64)
| EvPut (m : MetricMap) (l : Label) (v : float64).

Record complexMap : Set := {
  counter : MetricMap;
  gauge : MetricMap;
  histogram : MetricMap
}.

Record World : Type := {
  complexMetrics : gmap string complexMap;
  metricMaps : list MapConfig;
  trace : list Event
}.

Definition emit (e : Event) (σ : World) : World :=
  {| complexMetrics := complexMetrics σ;
     metricMaps := metricMaps σ;
     trace := trace σ ++ [e] |}.

(** [metrics.RegisterMap[Label](typ, name, help, bounds)], of the metric
    engine: it registers a map and returns its handle. *)
Definition metrics_RegisterMap (typ : MetricType) (name help : string)
    (bounds : list float64) (σ : World) : MetricMap * World :=
  let cfg := {| cfg_type := typ; cfg_name := name; cfg_help := help;
                cfg_bounds := bounds |} in
  (length (metricMaps σ),
   {| complexMetrics := complexMetrics σ;
      metricMaps := metricMaps σ ++ [cfg];
      trace := trace σ ++ [EvRegisterMap cfg] |}).

Definition RegisterCounterMap (name help : string) (σ : World) : MetricMap * World :=
  metrics_RegisterMap MetricType_COUNTER name help [] σ.

Definition RegisterGaugeMap (name help : string) (σ : World) : MetricMap * World :=
  metrics_RegisterMap MetricType_GAUGE name help [] σ.

Definition RegisterHistogramMap (name help : string) (buckets : list float64)
    (σ : World) : MetricMap * World :=
  metrics_RegisterMap MetricType_HISTOGRAM name help buckets σ.

Definition counterMap_Add (it : MetricMap) (name item : string) (v : float64)
    (σ : World) : World :=
  emit (EvAdd it {| Label_Name := name; Label_Item := item |} v) σ.

Definition counterMap_Set (it : MetricMap) (name item : string) (v : float64)
    (σ : World) : World :=
  emit (EvSet it {| Label_Name := name; Label_Item := item |} v) σ.

Definition gaugeMap_Add (it : MetricMap) (name item : string) (v : float64)
    (σ : World) : World :=
  emit (EvAdd it {| Label_Name := name; Label_Item := item |} v) σ.

Definition gaugeMap_Set (it : MetricMap) (name item : string) (v : float64)
    (σ : World) : World :=
  emit (EvSet it {| Label_Name := name; Label_Item := item |} v) σ.

Definition histogramMap_Add (it : MetricMap) (name item : string) (v : float64)
    (σ : World) : World :=
  emit (EvPut it {| Label_Name := name; Label_Item := item |} v) σ.

(** [RegisterComplexMap]: [mu.Lock()], the deferred [mu.Unlock()] last. *)
Definition RegisterComplexMap (name help : string) (buckets : list float64)
    (σ : World) : complexMap * World :=
  let σ := emit EvLock σ in
  let σ := emit (EvLookup name) σ in
  let '(m, σ) :=
    match complexMetrics σ !! name with
    | Some m => (m, σ)
    | None =>
        let '(c, σ) := metrics_RegisterMap MetricType_COUNTER
                         (name +:+ "_counter") help [] σ in
        let '(g, σ) := metrics_RegisterMap MetricType_GAUGE
                         (name +:+ "_gauge") help [] σ in
        let '(h, σ) := metrics_RegisterMap MetricType_HISTOGRAM
                         (name +:+ "_histogram") help buckets σ in
        let m := {| counter := c; gauge := g; histogram := h |} in
        (m, {| complexMetrics := <[name := m]> (complexMetrics σ);
               metricMaps := metricMaps σ;
               trace := trace σ ++ [EvStore name] |})
    end in
  (m, emit EvUnlock σ).

(** [complexMap.Add]; [h] is a [time.Duration]. *)
Definition complexMap_Add (it : complexMap) (name item : string)
    (c g : float64) (h : Z) (σ : World) : World :=
  let l := {| Label_Name := name; Label_Item := item |} in
  let σ := if PrimFloat.ltb 0%float c then emit (EvAdd (counter it) l c) σ else σ in
  let σ := if negb (PrimFloat.eqb g 0%float) then emit (EvAdd (gauge it) l g) σ else σ in
  let σ := if 0 <=? h then emit (EvPut (histogram it) l (Seconds h)) σ else σ in
  σ.


(** ** The output, as the specification describes it

    A second reading of the encoder, by the shape of its output rather
    than by the loops that write it; the theorems below compare the two. *)

Definition escape_char (c : ascii) : string :=
  if Ascii.eqb c "092" then backslash +:+ backslash
  else if Ascii.eqb c "010" then backslash +:+ "n"
  else if Ascii.eqb c "034" then backslash +:+ dquote
  else String c "".

Fixpoint escape (s : string) : string :=
  match s with
  | EmptyString => EmptyString
  | String c s' => escape_char c +:+ escape s'
  end.

(** [sep x1 , x2 , ... xn]: the items, the first after [sep], each later
    one after a comma. *)
Fixpoint joined (sep : string) (items : list string) : string :=
  match items with
  | [] => ""
  | x :: items' => sep +:+ x +:+ joined "," items'
  end.

(** "Sorted by name, then id". *)
Definition snapshot_le (a b : MetricSnapshot) : Prop :=
  String.ltb (Name a) (Name b) = true ∨ (Name a = Name b ∧ Id a ≤ Id b).

(** Strictly ascending, bytewise. *)
Definition string_lt (a b : string) : Prop := String.ltb a b = true.

Definition uint64_sum (counts : list Z) : Z := foldl uint64_add 0 counts.

Definition Z_sum (counts : list Z) : Z := foldr Z.add 0 counts.

Section EncoderText.
Variable FormatFloat : float64 → string.

Definition label_names (labels : gmap string string) : list string :=
  sort_Strings (map_to_list labels).*1.

Definition label_pair (labels : gmap string string) (l : string) : string :=
  l +:+ "=" +:+ dquote +:+ escape (default "" (labels !! l)) +:+ dquote.

Definition extra_pair (extraLabelName : string) (extraLabelItem : float64) : string :=
  extraLabelName +:+ "=" +:+ dquote +:+ FormatFloat extraLabelItem +:+ dquote.

Definition label_items (labels : gmap string string)
    (extraLabelName : string) (extraLabelItem : float64) : list string :=
  map (label_pair labels) (label_names labels)
  ++ (if String.eqb extraLabelName "" then []
      else [extra_pair extraLabelName extraLabelItem]).

Definition label_block (labels : gmap string string)
    (extraLabelName : string) (extraLabelItem : float64) : string :=
  match label_items labels extraLabelName extraLabelItem with
  | [] => ""
  | items => joined "{" items +:+ "}"
  end.

(** One series line. *)
Definition entry_text (metricName suffix : string) (labels : gmap string string)
    (extraLabelName : string) (extraLabelItem value : float64) : string :=
  metricName +:+ suffix +:+ label_block labels extraLabelName extraLabelItem
  +:+ " " +:+ FormatFloat value +:+ nl.

(** The [_bucket] line of the [i]-th bound carries the running sum of the
    counts up to that bound. *)
Definition bucket_line (metric : MetricSnapshot) (i : nat) (bound : float64) : string :=
  entry_text (Name metric) "_bucket" (Labels metric) "le" bound
    (float64_of_Z (uint64_sum (take (S i) (Counts metric)))).

Definition bucket_lines (metric : MetricSnapshot) : list string :=
  imap (bucket_line metric) (Bounds metric).

(** The grand total: all the counts up to and with the overflow entry. *)
Definition total_count (metric : MetricSnapshot) : Z :=
  uint64_sum (take (S (length (Bounds metric))) (Counts metric)).

Definition histogram_text (metric : MetricSnapshot) : string :=
  String.concat "" (bucket_lines metric)
  +:+ (if existsb IsInf (Bounds metric) then ""
       else entry_text (Name metric) "_bucket" (Labels metric) "le" Inf
              (float64_of_Z (total_count metric)))
  +:+ entry_text (Name metric) "_sum" (Labels metric) "" 0%float (Value metric)
  +:+ entry_text (Name metric) "_count" (Labels metric) "" 0%float
        (float64_of_Z (total_count metric)).

Definition value_text (metric : MetricSnapshot) : string :=
  entry_text (Name metric) "" (Labels metric) "" 0%float (Value metric).

(** The lines of one series; a histogram whose counts are too few for its
    bounds makes the encoder panic. *)
Definition series_text (isHistogram : bool) (metric : MetricSnapshot) : result string :=
  if isHistogram then
    if (length (Bounds metric) <? length (Counts metric))%nat
    then Ok (histogram_text metric)
    else Panic "index out of range"
  else Ok (value_text metric).

Fixpoint series_blocks (isHistogram : bool) (metrics : list MetricSnapshot)
  : result (list string) :=
  match metrics with
  | [] => Ok []
  | metric :: metrics' =>
      t ← series_text isHistogram metric;
      ts ← series_blocks isHistogram metrics';
      Ok (t :: ts)
  end.

(** The series of a group: those of a histogram group are set apart by a
    blank line, the others follow one another. *)
Definition body_text (isHistogram : bool) (blocks : list string) : string :=
  String.concat (if isHistogram then nl else "") blocks.

Definition help_line (metric : MetricSnapshot) : string :=
  if String.eqb (Help metric) "" then ""
  else "# HELP " +:+ Name metric +:+ " " +:+ Help metric +:+ nl.

Definition type_keyword (t : MetricType) : option string :=
  match t with
  | MetricType_COUNTER => Some "counter"
  | MetricType_GAUGE => Some "gauge"
  | MetricType_HISTOGRAM => Some "histogram"
  | MetricType_INVALID => None
  end.

Definition is_histogram (t : MetricType) : bool :=
  match t with MetricType_HISTOGRAM => true | _ => false end.

(** The header of a group: the HELP line when there is a help text, and
    the TYPE line, which ends after the name when the type has no
    keyword. *)
Definition header_text (metric : MetricSnapshot) : string :=
  help_line metric +:+ "# TYPE " +:+ Name metric
  +:+ match type_keyword (Type_ metric) with
      | Some keyword => " " +:+ keyword +:+ nl
      | None => ""
      end.

(** Two snapshots that yield the same series lines: they agree on all
    but the help text and the type. *)
Definition same_series (a b : MetricSnapshot) : Prop :=
  Name a = Name b ∧ Labels a = Labels b ∧ Value a = Value b
  ∧ Bounds a = Bounds b ∧ Counts a = Counts b.

(** The names of the groups, each once, ascending. *)
Definition group_names (ms : list MetricSnapshot) : list string :=
  sort_Strings (remove_dups (map Name ms)).

(** The snapshots of the group called [name], in the order of [ms]. *)
Definition group_of (name : string) (ms : list MetricSnapshot) : list MetricSnapshot :=
  filter (λ m, Name m = name) ms.

End EncoderText.

(** ** Snapshots to run the encoder on *)

Module Examples.

Definition counter_snapshot (id : Z) (name help : string)
    (labels : gmap string string) (value : float64) : MetricSnapshot :=
  {| Id := id; Name := name; Type_ := MetricType_COUNTER; Help := help;
     Labels := labels; Value := value; Bounds := []; Counts := [] |}.

Definition histogram_snapshot (id : Z) (name help : string)
    (labels : gmap string string) (value : float64)
    (bounds : list float64) (counts : list Z) : MetricSnapshot :=
  {| Id := id; Name := name; Type_ := MetricType_HISTOGRAM; Help := help;
     Labels := labels; Value := value; Bounds := bounds; Counts := counts |}.

(** Two series of one counter, the one with the larger id first. *)
Definition requests_id2 : MetricSnapshot :=
  counter_snapshot 2 "requests" "" ∅ 20%float.
Definition requests_id1 : MetricSnapshot :=
  counter_snapshot 1 "requests" "" ∅ 10%float.

(** Two snapshots that agree on name and id and differ in value. *)
Definition same_key_first : MetricSnapshot :=
  counter_snapshot 1 "a" "" ∅ 1%float.
Definition same_key_second : MetricSnapshot :=
  counter_snapshot 1 "a" "" ∅ 2%float.

(** A histogram whose last bound is [+Inf] and whose overflow entry, the
    count after the last bound, is not zero. *)
Definition inf_bound_histogram : MetricSnapshot :=
  histogram_snapshot 1 "h" "" ∅ infinity [infinity] [1; 1].

(** A histogram group of two series, with labels. *)
Definition latency_a : MetricSnapshot :=
  histogram_snapshot 1 "latency" "Request latency."
    (<["path" := "/a"]> (<["host" := "x"]> ∅)) 7%float
    [1; 2]%float [1; 2; 3].
Definition latency_b : MetricSnapshot :=
  histogram_snapshot 2 "latency" "" ∅ 3%float [1; 2]%float [0; 1; 0].


Definition fmt : float64 → string := FormatFloat_integral.

(** Texts: a quoted string, and lines each closed by a newline. *)
Definition quoted (s : string) : string := dquote +:+ s +:+ dquote.

Definition lines (l : list string) : string :=
  String.concat "" (map (λ s, s +:+ nl) l).

Definition latency_text : string :=
  lines [ "# HELP latency Request latency.";
          "# TYPE latency histogram";
          "latency_bucket{host=" +:+ quoted "x" +:+ ",path=" +:+ quoted "/a"
            +:+ ",le=" +:+ quoted "1" +:+ "} 1";
          "latency_bucket{host=" +:+ quoted "x" +:+ ",path=" +:+ quoted "/a"
            +:+ ",le=" +:+ quoted "2" +:+ "} 3";
          "latency_bucket{host=" +:+ quoted "x" +:+ ",path=" +:+ quoted "/a"
            +:+ ",le=" +:+ quoted "+Inf" +:+ "} 6";
          "latency_sum{host=" +:+ quoted "x" +:+ ",path=" +:+ quoted "/a" +:+ "} 7";
          "latency_count{host=" +:+ quoted "x" +:+ ",path=" +:+ quoted "/a" +:+ "} 6";
          "";
          "latency_bucket{le=" +:+ quoted "1" +:+ "} 0";
          "latency_bucket{le=" +:+ quoted "2" +:+ "} 1";
          "latency_bucket{le=" +:+ quoted "+Inf" +:+ "} 1";
          "latency_sum 3";
          "latency_count 1";
          "" ].

(** Labels whose values hold a backslash, a newline and a double quote. *)
Definition escaped_labels : gmap string string :=
  <["path" := "a\b"]> (<["note" := "x" +:+ nl +:+ "y" +:+ dquote]> ∅).

(** The package at start-up: nothing registered, nothing called. *)
Definition empty_world : World :=
  {| complexMetrics := ∅; metricMaps := []; trace := [] |}.

End Examples.

(** ** The scrape handler and programs over the maps *)

(** [HttpHandler]: the encoder runs on a buffer of its own over the
    snapshot the engine hands out ([metrics.Snapshot()]), and the buffer is
    written to the response only after the encoder has returned.  The
    result is the body of the response after the call and, when the
    encoder panicked, the panic. *)
Definition HttpHandler (FormatFloat : float64 → string) (order : MapOrder)
    (snapshot : list MetricSnapshot) (body : string) : string * result () :=
  let buf := "" in
  match (translateMetricsToPrometheusTextFormat FormatFloat order buf snapshot).2 with
  | Ok buf => (body +:+ buf, Ok ())
  | Panic msg => (body, Panic msg)
  end.

(** What a program may call on the package. *)
Inductive Op : Type :=
| CallRegisterCounterMap (name help : string)
| CallRegisterGaugeMap (name help : string)
| CallRegisterHistogramMap (name help : string) (buckets : list float64)
| CallRegisterComplexMap (name help : string) (buckets : list float64)
| CallCounterAdd (it : MetricMap) (name item : string) (v : float64)
| CallCounterSet (it : MetricMap) (name item : string) (v : float64)
| CallGaugeAdd (it : MetricMap) (name item : string) (v : float64)
| CallGaugeSet (it : MetricMap) (name item : string) (v : float64)
| CallHistogramAdd (it : MetricMap) (name item : string) (v : float64)
| CallComplexAdd (it : complexMap) (name item : string) (c g : float64) (h : Z).

Definition call (σ : World) (op : Op) : World :=
  match op with
  | CallRegisterCounterMap name help => (RegisterCounterMap name help σ).2
  | CallRegisterGaugeMap name help => (RegisterGaugeMap name help σ).2
  | CallRegisterHistogramMap name help buckets =>
      (RegisterHistogramMap name help buckets σ).2
  | CallRegisterComplexMap name help buckets =>
      (RegisterComplexMap name help buckets σ).2
  | CallCounterAdd it name item v => counterMap_Add it name item v σ
  | CallCounterSet it name item v => counterMap_Set it name item v σ
  | CallGaugeAdd it name item v => gaugeMap_Add it name item v σ
  | CallGaugeSet it name item v => gaugeMap_Set it name item v σ
  | CallHistogramAdd it name item v => histogramMap_Add it name item v σ
  | CallComplexAdd it name item c g h => complexMap_Add it name item c g h σ
  end.

(** A program: calls one after the other. *)
Definition run (ops : list Op) (σ : World) : World := foldl call σ ops.

(** ** Reading the output back *)

(** How a reader of the text format undoes the escaping of a label value:
    after a backslash, [n] stands for a newline and every other byte for
    itself. *)
Fixpoint unescape_from (escaped : bool) (s : string) : string :=
  match s with
  | EmptyString => EmptyString
  | String c s' =>
      if escaped then
        String (if Ascii.eqb c "n" then "010"%char else c) (unescape_from false s')
      else if Ascii.eqb c "092" then unescape_from true s'
      else String c (unescape_from false s')
  end.

Definition unescape (s : string) : string := unescape_from false s.

(** The bytes [escaper] replaces. *)
Definition is_special (c : ascii) : bool :=
  Ascii.eqb c "092" || Ascii.eqb c "010" || Ascii.eqb c "034".

Fixpoint count_special (s : string) : nat :=
  match s with
  | EmptyString => 0
  | String c s' => (if is_special c then 1 else 0) + count_special s'
  end.

(** A histogram snapshot the encoder cannot index: its counts do not reach
    past its bounds. *)
Definition short_counts (m : MetricSnapshot) : Prop :=
  (length (Counts m) ≤ length (Bounds m))%nat.

(** The registry is well formed at [name]: the bundle's three handles are
    maps the engine holds, of the three types, under the derived names. *)
Definition bundle_registered (σ : World) (name : string) (m : complexMap) : Prop :=
  ∃ help buckets,
    metricMaps σ !! counter m
    = Some {| cfg_type := MetricType_COUNTER; cfg_name := name +:+ "_counter";
              cfg_help := help; cfg_bounds := [] |}
    ∧ metricMaps σ !! gauge m
      = Some {| cfg_type := MetricType_GAUGE; cfg_name := name +:+ "_gauge";
                cfg_help := help; cfg_bounds := [] |}
    ∧ metricMaps σ !! histogram m
      = Some {| cfg_type := MetricType_HISTOGRAM;
                cfg_name := name +:+ "_histogram";
                cfg_help := help; cfg_bounds := buckets |}.


(** The handles of a bundle. *)
Definition handles (m : complexMap) : list MetricMap :=
  [counter m; gauge m; histogram m].

(** An engine call made for the bundle registered as [name] lands on one
    of its maps: an [Add] on the counter or the gauge map, a [Put] on the
    histogram map. *)
Definition lands_on_bundle (σ : World) (name : string) (e : Event) : Prop :=
  match e with
  | EvAdd k _ _ =>
      ∃ cfg, metricMaps σ !! k = Some cfg
             ∧ (cfg_type cfg = MetricType_COUNTER
                ∧ cfg_name cfg = name +:+ "_counter"
                ∨ cfg_type cfg = MetricType_GAUGE
                  ∧ cfg_name cfg = name +:+ "_gauge")
  | EvPut k _ _ =>
      ∃ cfg, metricMaps σ !! k = Some cfg
             ∧ cfg_type cfg = MetricType_HISTOGRAM
             ∧ cfg_name cfg = name +:+ "_histogram"
  | _ => False
  end.


(** The texts of several groups, or the first panic among them. *)
Fixpoint collect (rs : list (result string)) : result (list string) :=
  match rs with
  | [] => Ok []
  | r :: rs' => t ← r; ts ← collect rs'; Ok (t :: ts)
  end.

Fixpoint count_newlines (s : string) : nat :=
  match s with
  | EmptyString => 0
  | String c s' => (if Ascii.eqb c "010" then 1 else 0) + count_newlines s'
  end.

(** The use of the mutex along a trace: [mu] is taken only when free and
    released only when held, [complexMetrics] is read and written only
    while it is held, and no series is updated while it is held.  The
    result is whether [mu] is held at the end, or [None] where the trace
    breaks one of these rules. *)
Fixpoint mutex_scan (held : bool) (tr : list Event) : option bool :=
  match tr with
  | [] => Some held
  | e :: tr' =>
      match e, held with
      | EvLock, false => mutex_scan true tr'
      | EvUnlock, true => mutex_scan false tr'
      | EvLookup _, true | EvStore _, true => mutex_scan true tr'
      | EvRegisterMap _, _ => mutex_scan held tr'
      | EvAdd _ _ _, false | EvSet _ _ _, false | EvPut _ _ _, false =>
          mutex_scan false tr'
      | _, _ => None
      end
  end.

(** * Theorems *)

Module BucketsFacts.
Import Buckets.

Lemma geometric_shift start factor i :
  geometric (PrimFloat.mul start factor) factor i
  = PrimFloat.mul (geometric start factor i) factor.
Proof.
  induction i as [|i IH]; simpl; [reflexivity|]. by rewrite IH.
Qed.

Lemma fill_loop factor (pre suf : list float64) (start : float64) :
  (foldl (fill_step factor) (pre ++ suf, start)
         (seq (length pre) (length suf))).1
  = pre ++ map (geometric start factor) (seq 0 (length suf)).
Proof.
  revert pre start. induction suf as [|x suf IH]; intros pre start; simpl.
  - reflexivity.
  - unfold fill_step at 2. simpl.
    replace (<[length pre:=start]> (pre ++ x :: suf))
      with ((pre ++ [start]) ++ suf).
    2:{ rewrite insert_app_r_alt by lia. rewrite Nat.sub_diag. simpl.
        by rewrite <- app_assoc. }
    replace (S (length pre)) with (length (pre ++ [start]))
      by (rewrite length_app; simpl; lia).
    rewrite IH. rewrite <- app_assoc. simpl. f_equal. f_equal.
    rewrite <- seq_shift, map_map.
    apply map_ext. intros i. apply geometric_shift.
Qed.

Lemma fill_geometric buckets start factor :
  fill buckets start factor
  = map (geometric start factor) (seq 0 (length buckets)).
Proof.
  unfold fill. apply (fill_loop factor [] buckets start).
Qed.

End BucketsFacts.

(** ** Strings *)

Module StringFacts.

Lemma append_cons c (a b : string) : String c a +:+ b = String c (a +:+ b).
Proof. reflexivity. Qed.

Lemma append_nil_l (a : string) : "" +:+ a = a.
Proof. reflexivity. Qed.

Lemma append_nil_r (a : string) : a +:+ "" = a.
Proof.
  induction a as [|c a IH]; [reflexivity|]. by rewrite append_cons, IH.
Qed.

Lemma append_assoc (a b c : string) : (a +:+ b) +:+ c = a +:+ (b +:+ c).
Proof.
  induction a as [|x a IH]; [reflexivity|]. by rewrite !append_cons, IH.
Qed.


Lemma ltb_leb (a b : string) : String.ltb a b = negb (String.leb b a).
Proof.
  unfold String.ltb, String.leb. rewrite (String.compare_antisym b a).
  by destruct (String.compare a b).
Qed.

Lemma ltb_false_le (a b : string) : String.ltb b a = false ↔ String.le a b.
Proof.
  rewrite ltb_leb. unfold String.le.
  destruct (String.leb a b); simpl; split; intros; done.
Qed.

End StringFacts.

(** ** The insertion sort *)

Section SortFacts.
Context {A : Type} (less : A → A → bool).

(** [x] may stand before [y] in a sorted slice. *)
Definition not_after (x y : A) : Prop := less y x = false.

Lemma insert_back_Permutation x r : insert_back less x r ≡ₚ x :: r.
Proof.
  induction r as [|y r IH]; simpl; [done|].
  destruct (less x y); [|done]. rewrite IH. apply Permutation_swap.
Qed.

Lemma insertion_loop_Permutation data acc :
  foldl (λ rprefix x, insert_back less x rprefix) acc data ≡ₚ acc ++ data.
Proof.
  revert acc. induction data as [|x data IH]; intros acc; simpl.
  - by rewrite app_nil_r.
  - rewrite IH, insert_back_Permutation. simpl. apply Permutation_middle.
Qed.

Lemma insertionSort_Permutation data : insertionSort less data ≡ₚ data.
Proof.
  unfold insertionSort. by rewrite reverse_Permutation, insertion_loop_Permutation.
Qed.

Lemma insert_back_last x r :
  Forall (λ y, not_after y x) r → insert_back less x r = x :: r.
Proof.
  destruct r as [|y r]; [done|]. intros Hall. simpl.
  apply Forall_cons_1 in Hall as [Hy _]. unfold not_after in Hy. by rewrite Hy.
Qed.

Lemma insertion_loop_sorted pre data :
  StronglySorted not_after (pre ++ data) →
  foldl (λ rprefix x, insert_back less x rprefix) (reverse pre) data
  = reverse (pre ++ data).
Proof.
  revert pre. induction data as [|x data IH]; intros pre Hsorted; simpl.
  - by rewrite app_nil_r.
  - rewrite insert_back_last.
    + rewrite <- reverse_snoc. rewrite IH; rewrite <- app_assoc; done.
    + apply StronglySorted_app in Hsorted as (Hcross & _ & _).
      apply Forall_forall. intros y Hy. apply Hcross.
      * by apply elem_of_reverse.
      * by left.
Qed.

(** A slice that is sorted already is left as it is. *)
Lemma insertionSort_sorted_id data :
  StronglySorted not_after data → insertionSort less data = data.
Proof.
  intros Hsorted. unfold insertionSort.
  rewrite <- (reverse_nil (A:=A)) at 1.
  rewrite (insertion_loop_sorted [] data Hsorted). simpl. apply reverse_involutive.
Qed.

(** The sort is stable: snapshots none of which is less than another keep
    the order they came in. *)
Lemma insert_back_stable (P : A → Prop) `{∀ x, Decision (P x)} x r :
  (∀ a b, P a → P b → less a b = false) →
  filter P (insert_back less x r) = filter P (x :: r).
Proof.
  intros Hclass. induction r as [|y r IH]; [done|]. simpl.
  destruct (less x y) eqn:Hxy; [|done].
  rewrite (filter_cons _ y), IH, !(filter_cons _ x), !(filter_cons _ y).
  destruct (decide (P x)) as [Hx|Hx], (decide (P y)) as [Hy|Hy]; try done.
  by rewrite (Hclass x y Hx Hy) in Hxy.
Qed.

Lemma insertion_loop_stable (P : A → Prop) `{∀ x, Decision (P x)} data acc :
  (∀ a b, P a → P b → less a b = false) →
  filter P (foldl (λ rprefix x, insert_back less x rprefix) acc data)
  = filter P (reverse data ++ acc).
Proof.
  intros Hclass. revert acc. induction data as [|x data IH]; intros acc; [done|].
  cbn [foldl]. rewrite IH, reverse_cons, <- app_assoc.
  rewrite !(filter_app _ (reverse data)). f_equal. by apply insert_back_stable.
Qed.

Lemma insertionSort_stable (P : A → Prop) `{∀ x, Decision (P x)} data :
  (∀ a b, P a → P b → less a b = false) →
  filter P (insertionSort less data) = filter P data.
Proof.
  intros Hclass. unfold insertionSort.
  rewrite filter_reverse, (insertion_loop_stable P) by done.
  by rewrite app_nil_r, <- filter_reverse, reverse_involutive.
Qed.

Hypothesis less_asym : ∀ x y, less x y = true → less y x = false.
Hypothesis not_after_trans : ∀ x y z, not_after x y → not_after y z → not_after x z.

Lemma insert_back_sorted x r :
  StronglySorted (flip not_after) r →
  StronglySorted (flip not_after) (insert_back less x r).
Proof.
  induction 1 as [|y r Hr IH Hy]; simpl.
  - repeat constructor.
  - destruct (less x y) eqn:Hxy.
    + constructor; [done|]. rewrite insert_back_Permutation.
      constructor; [|done]. unfold flip, not_after. by apply less_asym.
    + constructor; [by constructor|].
      constructor; [done|].
      eapply Forall_impl; [exact Hy|]. unfold flip. intros z Hz.
      by apply (not_after_trans z y x).
Qed.

Lemma insertion_loop_descending data acc :
  StronglySorted (flip not_after) acc →
  StronglySorted (flip not_after)
    (foldl (λ rprefix x, insert_back less x rprefix) acc data).
Proof.
  revert acc. induction data as [|x data IH]; intros acc Hacc; simpl; [done|].
  by apply IH, insert_back_sorted.
Qed.

Lemma StronglySorted_reverse_flip (l : list A) :
  StronglySorted (flip not_after) l → StronglySorted not_after (reverse l).
Proof.
  induction 1 as [|x l Hl IH Hx]; [rewrite reverse_nil; constructor|].
  rewrite reverse_cons. apply StronglySorted_app_2; [|done|repeat constructor].
  intros y z Hy Hz. apply list_elem_of_singleton in Hz as ->.
  rewrite elem_of_reverse in Hy. rewrite Forall_forall in Hx. exact (Hx y Hy).
Qed.

Lemma insertionSort_sorted data : StronglySorted not_after (insertionSort less data).
Proof.
  apply StronglySorted_reverse_flip, insertion_loop_descending. constructor.
Qed.

(** Where no two different elements compare equal, the sorted slice is the
    same for every arrangement of the input. *)
Lemma insertionSort_unique l1 l2 :
  (∀ x y, x ∈ l1 → y ∈ l1 → not_after x y → not_after y x → x = y) →
  l1 ≡ₚ l2 → insertionSort less l1 = insertionSort less l2.
Proof.
  intros Hanti Hperm.
  apply (StronglySorted_unique_strong not_after);
    [|apply insertionSort_sorted..|by rewrite !insertionSort_Permutation].
  intros x y Hx Hy. apply Hanti.
  - by rewrite insertionSort_Permutation in Hx.
  - by rewrite insertionSort_Permutation, <- Hperm in Hy.
Qed.

End SortFacts.

Module NewBucketsClaims.
Import Buckets BucketsFacts.



End NewBucketsClaims.

(** ** The orders the encoder sorts by *)

Module OrderFacts.
Import StringFacts.

Lemma ltb_asym (a b : string) : String.ltb a b = true → String.ltb b a = false.
Proof.
  rewrite (ltb_leb b a), (ltb_leb a b).
  destruct (String.leb_total a b) as [H|H]; rewrite H; simpl; [done|].
  intros. discriminate.
Qed.

Lemma ltb_irrefl (a : string) : String.ltb a a = false.
Proof. destruct (String.ltb a a) eqn:H; [|done]. by rewrite (ltb_asym a a H) in H. Qed.

Lemma le_ne_ltb (a b : string) : String.le a b → a ≠ b → String.ltb a b = true.
Proof.
  intros Hle Hne. rewrite ltb_leb. destruct (String.leb b a) eqn:Hba; [|done].
  destruct Hne. apply String.leb_antisym; [|done]. by apply Is_true_true.
Qed.

Lemma ltb_le (a b : string) : String.ltb a b = true → String.le a b.
Proof. intros H. by apply ltb_false_le, ltb_asym. Qed.

Lemma ltb_trans (a b c : string) :
  String.ltb a b = true → String.ltb b c = true → String.ltb a c = true.
Proof.
  intros Hab Hbc. apply le_ne_ltb.
  - etrans; by apply ltb_le.
  - intros ->. by rewrite (ltb_asym _ _ Hab) in Hbc.
Qed.

Lemma string_not_after_trans (x y z : string) :
  not_after String.ltb x y → not_after String.ltb y z → not_after String.ltb x z.
Proof. unfold not_after. rewrite !ltb_false_le. apply transitivity. Qed.

Lemma sort_Strings_Permutation (l : list string) : sort_Strings l ≡ₚ l.
Proof. apply insertionSort_Permutation. Qed.

Lemma sort_Strings_unique (l1 l2 : list string) :
  l1 ≡ₚ l2 → sort_Strings l1 = sort_Strings l2.
Proof.
  apply insertionSort_unique.
  - apply ltb_asym.
  - apply string_not_after_trans.
  - intros x y _ _. unfold not_after. rewrite !ltb_false_le. apply anti_symm, _.
Qed.

(** Names that are all different come out strictly ascending. *)
Lemma sort_Strings_ascending (l : list string) :
  NoDup l → StronglySorted string_lt (sort_Strings l).
Proof.
  intros Hnd.
  assert (Hnd' : NoDup (sort_Strings l)) by by rewrite sort_Strings_Permutation.
  pose proof (insertionSort_sorted String.ltb ltb_asym string_not_after_trans l)
    as Hsorted.
  fold (sort_Strings l) in Hsorted.
  induction Hsorted as [|x r Hr IH Hx]; [constructor|].
  apply NoDup_cons in Hnd' as [Hx' Hnd'].
  constructor; [by apply IH|].
  rewrite Forall_forall in Hx. apply Forall_forall. intros y Hy.
  apply le_ne_ltb.
  - apply ltb_false_le, Hx, Hy.
  - intros ->. done.
Qed.

Lemma snapshot_less_false (a b : MetricSnapshot) :
  snapshot_less b a = false ↔ snapshot_le a b.
Proof.
  unfold snapshot_less, snapshot_le.
  destruct (String.eqb (Name b) (Name a)) eqn:Heq; simpl.
  - apply String.eqb_eq in Heq. rewrite Heq, ltb_irrefl, Z.ltb_ge.
    split; [intros; right; done|]. intros [?|[_ ?]]; done.
  - apply String.eqb_neq in Heq. rewrite ltb_false_le. split.
    + intros Hle. left. apply le_ne_ltb; [done|]. intros ?. by apply Heq.
    + intros [Hlt|[Hn _]]; [by apply ltb_le|]. by destruct Heq.
Qed.

Lemma snapshot_less_asym (a b : MetricSnapshot) :
  snapshot_less a b = true → snapshot_less b a = false.
Proof.
  unfold snapshot_less. rewrite (String.eqb_sym (Name b)).
  destruct (String.eqb (Name a) (Name b)); simpl.
  - rewrite Z.ltb_lt, Z.ltb_ge. lia.
  - apply ltb_asym.
Qed.

Lemma snapshot_le_trans (a b c : MetricSnapshot) :
  snapshot_le a b → snapshot_le b c → snapshot_le a c.
Proof.
  unfold snapshot_le. intros [Hab|[Hab Hi]] [Hbc|[Hbc Hj]].
  - left. by eapply ltb_trans.
  - left. by rewrite <- Hbc.
  - left. by rewrite Hab.
  - right. split; [congruence|lia].
Qed.

Lemma snapshot_not_after_trans (x y z : MetricSnapshot) :
  not_after snapshot_less x y → not_after snapshot_less y z →
  not_after snapshot_less x z.
Proof. unfold not_after. rewrite !snapshot_less_false. apply snapshot_le_trans. Qed.

Lemma StronglySorted_iff {A : Type} (R1 R2 : A → A → Prop) (l : list A) :
  (∀ x y, R1 x y ↔ R2 x y) → StronglySorted R1 l ↔ StronglySorted R2 l.
Proof.
  intros HR. induction l as [|x l IH]; [split; constructor|].
  rewrite !StronglySorted_cons, IH. f_equiv. apply Forall_proper; [|done].
  intros y. apply HR.
Qed.

Lemma SliceStable_sorted (ms : list MetricSnapshot) :
  StronglySorted snapshot_le (SliceStable snapshot_less ms).
Proof.
  apply (StronglySorted_iff (not_after snapshot_less)).
  - intros x y. apply snapshot_less_false.
  - apply insertionSort_sorted;
      [apply snapshot_less_asym|apply snapshot_not_after_trans].
Qed.

Lemma SliceStable_Permutation (ms : list MetricSnapshot) :
  SliceStable snapshot_less ms ≡ₚ ms.
Proof. apply insertionSort_Permutation. Qed.

Lemma SliceStable_sorted_id (ms : list MetricSnapshot) :
  StronglySorted snapshot_le ms → SliceStable snapshot_less ms = ms.
Proof.
  intros H. apply insertionSort_sorted_id.
  apply (StronglySorted_iff (not_after snapshot_less) snapshot_le); [|done].
  intros x y. apply snapshot_less_false.
Qed.

(** Snapshots that differ in name or id: the sorted slice does not depend
    on the order they came in. *)
Lemma SliceStable_unique (ms1 ms2 : list MetricSnapshot) :
  (∀ x y, x ∈ ms1 → y ∈ ms1 → Name x = Name y → Id x = Id y → x = y) →
  ms1 ≡ₚ ms2 → SliceStable snapshot_less ms1 = SliceStable snapshot_less ms2.
Proof.
  intros Hkey. apply insertionSort_unique.
  - apply snapshot_less_asym.
  - apply snapshot_not_after_trans.
  - intros x y Hx Hy. unfold not_after. rewrite !snapshot_less_false.
    unfold snapshot_le. intros [Hxy|[Hn Hi]] [Hyx|[Hn' Hi']].
    + by rewrite (ltb_asym _ _ Hxy) in Hyx.
    + by rewrite Hn', ltb_irrefl in Hxy.
    + by rewrite Hn, ltb_irrefl in Hyx.
    + apply Hkey; [done..|lia].
Qed.

End OrderFacts.

(** ** The writers and the text they add to the buffer *)

Module WriterFacts.
Import StringFacts OrderFacts.

(** [escaper] replaces byte by byte. *)
Lemma escaper_escape (s : string) : escaper s = escape s.
Proof.
  unfold escaper. induction s as [|c s IH]; [reflexivity|].
  cbn [Replacer.replace escape]. unfold escape_char.
  cbn [find escaper_pairs fst String.prefix backslash nl dquote].
  assert (String.prefix "" s = true) as -> by (by destruct s).
  destruct (ascii_dec "092" c) as [<-|H1].
  { cbn. by rewrite IH. }
  rewrite (proj2 (Ascii.eqb_neq c "092")) by congruence.
  destruct (ascii_dec "010" c) as [<-|H2].
  { cbn. by rewrite IH. }
  rewrite (proj2 (Ascii.eqb_neq c "010")) by congruence.
  destruct (ascii_dec "034" c) as [<-|H3].
  { cbn. by rewrite IH. }
  rewrite (proj2 (Ascii.eqb_neq c "034")) by congruence.
  by rewrite IH.
Qed.

Lemma joined_snoc (sep : string) (items : list string) (x : string) :
  joined sep (items ++ [x])
  = joined sep items +:+ (if items is [] then sep else ",") +:+ x.
Proof.
  revert sep. induction items as [|y items IH]; intros sep; simpl.
  - by rewrite append_nil_r.
  - rewrite IH, !append_assoc. by destruct items.
Qed.

(** What [String.concat] makes of the items is what [joined] makes of
    them, less the leading separator. *)
Lemma joined_concat (sep x : string) (items : list string) :
  joined sep (x :: items) = sep +:+ String.concat "," (x :: items).
Proof.
  revert sep x. induction items as [|y items IH]; intros sep x.
  - simpl. by rewrite append_nil_r.
  - change (joined sep (x :: y :: items)) with (sep +:+ x +:+ joined "," (y :: items)).
    rewrite IH. reflexivity.
Qed.

Section Writers.
Variable FormatFloat : float64 → string.
Variable order : MapOrder.

Lemma Keys_Permutation {V : Type} (m : gmap string V) :
  Keys order m ≡ₚ (map_to_list m).*1.
Proof. apply shuffle_perm. Qed.

Lemma sorted_Keys (labels : gmap string string) :
  sort_Strings (Keys order labels) = label_names labels.
Proof. apply sort_Strings_unique, Keys_Permutation. Qed.

Lemma writeLabels_loop (labels : gmap string string) (names : list string)
    (w sep : string) :
  foldl (writeLabels_step labels) (w, sep) names
  = (w +:+ joined sep (map (label_pair labels) names),
     if names is [] then sep else ",").
Proof.
  revert w sep. induction names as [|l names IH]; intros w sep; simpl.
  - by rewrite append_nil_r.
  - unfold writeLabels_step at 2. cbn [fst snd]. rewrite IH.
    unfold label_pair at 2. rewrite escaper_escape, !append_assoc.
    by destruct names.
Qed.

Lemma label_names_nil (labels : gmap string string) :
  label_names labels = [] ↔ size labels = 0%nat.
Proof.
  unfold label_names. rewrite <- (length_zero_iff_nil (sort_Strings _)).
  by rewrite sort_Strings_Permutation, length_fmap, length_map_to_list.
Qed.

(** [writeLabels] adds the label block to the buffer. *)
Lemma writeLabels_text (w : string) (labels : gmap string string)
    (extraLabelName : string) (extraLabelItem : float64) :
  writeLabels FormatFloat order w labels extraLabelName extraLabelItem
  = w +:+ label_block FormatFloat labels extraLabelName extraLabelItem.
Proof.
  unfold writeLabels, label_block, label_items.
  rewrite sorted_Keys, writeLabels_loop. cbn [fst snd].
  destruct (String.eqb_spec extraLabelName "") as [->|Hextra].
  - cbn [String.length Nat.ltb Nat.leb]. rewrite app_nil_r, andb_true_r.
    destruct (Nat.eqb_spec (size labels) 0) as [Hsz|Hsz].
    + apply label_names_nil in Hsz. rewrite Hsz. simpl. by rewrite append_nil_r.
    + destruct (label_names labels) as [|l names] eqn:Hnames.
      { destruct Hsz. by apply label_names_nil. }
      by rewrite append_assoc.
  - rewrite andb_false_r.
    assert ((0 <? String.length extraLabelName)%nat = true) as ->.
    { destruct extraLabelName; [done|reflexivity]. }
    set (items := map (label_pair labels) (label_names labels)).
    assert (Hne : items ++ [extra_pair FormatFloat extraLabelName extraLabelItem] ≠ []).
    { by destruct items. }
    destruct (items ++ _) as [|x rest] eqn:Hitems; [done|]. rewrite <- Hitems.
    rewrite joined_snoc. unfold extra_pair. rewrite !append_assoc.
    f_equal. f_equal. subst items.
    by destruct (label_names labels).
Qed.

(** [writeEntry] adds one series line. *)
Lemma writeEntry_text (w metricName : string) (value : float64) (suffix : string)
    (labels : gmap string string) (extraLabelName : string)
    (extraLabelItem : float64) :
  writeEntry FormatFloat order w metricName value suffix labels
    extraLabelName extraLabelItem
  = w +:+ entry_text FormatFloat metricName suffix labels
            extraLabelName extraLabelItem value.
Proof.
  unfold writeEntry, entry_text. rewrite writeLabels_text.
  destruct suffix as [|c suffix].
  - cbn [String.length Nat.ltb Nat.leb]. by rewrite !append_assoc.
  - cbn [String.length Nat.ltb Nat.leb]. by rewrite !append_assoc.
Qed.

End Writers.

End WriterFacts.

(** ** One series, one group *)

Module SeriesFacts.
Import StringFacts OrderFacts WriterFacts.

Lemma uint64_sum_snoc (counts : list Z) (c : Z) :
  uint64_sum (counts ++ [c]) = uint64_add (uint64_sum counts) c.
Proof. unfold uint64_sum. by rewrite foldl_app. Qed.

Lemma uint64_sum_take_S (counts : list Z) (idx : nat) (c : Z) :
  counts !! idx = Some c →
  uint64_sum (take (S idx) counts) = uint64_add (uint64_sum (take idx counts)) c.
Proof. intros H. by rewrite (take_S_r _ _ _ H), uint64_sum_snoc. Qed.

Lemma concat_empty_cons (x : string) (xs : list string) :
  String.concat "" (x :: xs) = x +:+ String.concat "" xs.
Proof. destruct xs; simpl; [by rewrite append_nil_r|done]. Qed.

Lemma result_bind_Ok {A B : Type} (a : A) (k : A → result B) :
  (Ok a ≫= k) = k a.
Proof. reflexivity. Qed.


Section Series.
Variable FormatFloat : float64 → string.
Variable order : MapOrder.

Lemma buckets_loop_spec (metric : MetricSnapshot) (bounds : list float64) :
  ∀ (idx : nat) (st : bucket_state),
    (idx ≤ length (Counts metric))%nat →
    bs_count st = uint64_sum (take idx (Counts metric)) →
    buckets_loop FormatFloat order metric (Labels metric) idx bounds st
    = if (idx + length bounds <=? length (Counts metric))%nat then
        Ok {| bs_w := bs_w st +:+
                String.concat ""
                  (imap (λ i, bucket_line FormatFloat metric (idx + i)) bounds);
              bs_count :=
                uint64_sum (take (idx + length bounds) (Counts metric));
              bs_hasInf := bs_hasInf st || existsb IsInf bounds |}
      else Panic "index out of range".
Proof.
  induction bounds as [|bound bounds IH]; intros idx st Hidx Hcount.
  - cbn [buckets_loop length imap String.concat existsb].
    rewrite Nat.add_0_r, (proj2 (Nat.leb_le _ _) Hidx).
    rewrite append_nil_r, orb_false_r, <- Hcount. by destruct st.
  - cbn [buckets_loop length].
    destruct (Counts metric !! idx) as [c|] eqn:Hc.
    + pose proof (lookup_lt_Some _ _ _ Hc) as Hlt.
      rewrite IH; cbn [bs_w bs_count bs_hasInf].
      * replace (S idx + length bounds)%nat with (idx + S (length bounds))%nat by lia.
        destruct (idx + S (length bounds) <=? length (Counts metric))%nat; [|done].
        f_equal. f_equal.
        -- rewrite writeEntry_text, imap_cons, concat_empty_cons, append_assoc.
           f_equal. f_equal.
           ++ unfold bucket_line. rewrite Nat.add_0_r.
              by rewrite (uint64_sum_take_S _ _ _ Hc), Hcount.
           ++ f_equal. apply imap_ext. intros i x _. simpl. f_equal. lia.
        -- cbn [existsb]. by destruct (IsInf bound), (bs_hasInf st).
      * lia.
      * by rewrite (uint64_sum_take_S _ _ _ Hc), Hcount.
    + apply lookup_ge_None in Hc.
      by rewrite (proj2 (Nat.leb_gt _ _)) by lia.
Qed.

(** The loop body of [translateMetrics] adds the block of the series and,
    between the series of a histogram group, a blank line. *)
Lemma translate_series_spec (w : string) (isHistogram : bool)
    (len_metrics idx : nat) (metric : MetricSnapshot) :
  translate_series FormatFloat order w isHistogram len_metrics idx metric
  = t ← series_text FormatFloat isHistogram metric;
    Ok (w +:+ t +:+
        (if isHistogram && negb (idx =? len_metrics - 1)%nat then nl else "")).
Proof.
  unfold translate_series, series_text. destruct isHistogram.
  - rewrite buckets_loop_spec; [|simpl; lia|done].
    cbn [Nat.add bs_w bs_count bs_hasInf orb].
    destruct (Nat.leb_spec (length (Bounds metric)) (length (Counts metric)))
      as [Hle|Hgt].
    + rewrite result_bind_Ok. cbn [bs_w bs_count bs_hasInf].
      destruct (Counts metric !! length (Bounds metric)) as [c|] eqn:Hc.
      * pose proof (lookup_lt_Some _ _ _ Hc) as Hlt.
        rewrite (proj2 (Nat.ltb_lt _ _) Hlt).
        rewrite !result_bind_Ok. f_equal.
        rewrite <- (uint64_sum_take_S _ _ _ Hc).
        fold (total_count metric). unfold histogram_text, bucket_lines.
        destruct (existsb IsInf (Bounds metric)),
                 (negb (idx =? len_metrics - 1)%nat); cbn [negb andb];
          rewrite !writeEntry_text, ?append_assoc, ?append_nil_r; reflexivity.
      * apply lookup_ge_None in Hc.
        by rewrite (proj2 (Nat.ltb_ge _ _) Hc).
    + by rewrite (proj2 (Nat.ltb_ge _ _)) by lia.
  - rewrite !result_bind_Ok, writeEntry_text. cbn [andb].
    by rewrite append_nil_r.
Qed.

Lemma series_blocks_length (isHistogram : bool) (metrics : list MetricSnapshot)
    (ts : list string) :
  series_blocks FormatFloat isHistogram metrics = Ok ts →
  length ts = length metrics.
Proof.
  revert ts. induction metrics as [|m metrics IH]; intros ts; simpl.
  - by intros [= <-].
  - destruct (series_text FormatFloat isHistogram m) as [t|]; [|done].
    destruct (series_blocks FormatFloat isHistogram metrics) as [ts'|]; [|done].
    intros [= <-]. simpl. f_equal. by apply IH.
Qed.

Lemma series_loop_spec (isHistogram : bool) (len_metrics : nat)
    (metrics : list MetricSnapshot) :
  ∀ (idx : nat) (w : string),
    (idx + length metrics = len_metrics)%nat →
    series_loop FormatFloat order isHistogram len_metrics idx metrics w
    = ts ← series_blocks FormatFloat isHistogram metrics;
      Ok (w +:+ body_text isHistogram ts).
Proof.
  induction metrics as [|m metrics IH]; intros idx w Hlen.
  - simpl. by rewrite append_nil_r.
  - cbn [series_loop series_blocks]. rewrite translate_series_spec.
    destruct (series_text FormatFloat isHistogram m) as [t|msg]; [|done].
    rewrite !result_bind_Ok. rewrite IH by (simpl in Hlen; lia).
    destruct (series_blocks FormatFloat isHistogram metrics) as [ts|msg] eqn:Hts;
      [|done].
    rewrite !result_bind_Ok. f_equal.
    apply series_blocks_length in Hts.
    destruct ts as [|t' ts], metrics as [|m' metrics]; try done.
    + simpl in Hlen.
      replace (idx =? len_metrics - 1)%nat with true
        by (symmetry; apply Nat.eqb_eq; lia).
      rewrite andb_false_r. unfold body_text. simpl.
      by rewrite !append_assoc, !append_nil_r.
    + simpl in Hlen.
      replace (idx =? len_metrics - 1)%nat with false
        by (symmetry; apply Nat.eqb_neq; lia).
      rewrite andb_true_r. unfold body_text.
      cbn [String.concat negb]. rewrite !append_assoc.
      by destruct isHistogram.
Qed.

(** [translateMetrics] on a group: header, series, one blank line. *)
Lemma translateMetrics_spec (w : string) (metric : MetricSnapshot)
    (rest : list MetricSnapshot) :
  translateMetrics FormatFloat order w (metric :: rest)
  = ts ← series_blocks FormatFloat (is_histogram (Type_ metric)) (metric :: rest);
    Ok (w +:+ header_text metric
          +:+ body_text (is_histogram (Type_ metric)) ts +:+ nl).
Proof.
  unfold translateMetrics, header_text, help_line.
  set (w1 := if (0 <? String.length (Help metric))%nat then _ else w).
  assert (Hw1 : w1 = w +:+ (if String.eqb (Help metric) "" then ""
                            else "# HELP " +:+ Name metric +:+ " "
                                 +:+ Help metric +:+ nl)).
  { subst w1. destruct (Help metric); [by rewrite append_nil_r|done]. }
  rewrite Hw1. clear w1 Hw1.
  destruct (Type_ metric); cbn [type_keyword is_histogram];
    rewrite series_loop_spec by (simpl; lia);
    (destruct (series_blocks _ _ (metric :: rest)) as [ts|msg]; [|done]);
    rewrite !result_bind_Ok; f_equal;
    rewrite !append_assoc, ?append_nil_r; reflexivity.
Qed.

End Series.

End SeriesFacts.

(** ** Grouping by name *)

Module GroupFacts.
Import StringFacts OrderFacts WriterFacts SeriesFacts.

Lemma group_of_cons (name : string) (m : MetricSnapshot) (ms : list MetricSnapshot) :
  group_of name (m :: ms)
  = if decide (Name m = name) then m :: group_of name ms else group_of name ms.
Proof. unfold group_of. by rewrite filter_cons. Qed.

Lemma group_lookup (ms : list MetricSnapshot) :
  ∀ (userMetrics : gmap string (list MetricSnapshot)) (name : string),
    foldl group_step userMetrics ms !! name
    = match group_of name ms with
      | [] => userMetrics !! name
      | g => Some (default [] (userMetrics !! name) ++ g)
      end.
Proof.
  induction ms as [|m ms IH]; intros userMetrics name; [done|].
  cbn [foldl]. rewrite IH, group_of_cons. unfold group_step.
  destruct (decide (Name m = name)) as [->|Hne].
  - rewrite lookup_insert_eq. cbn [default id].
    destruct (group_of name ms); by rewrite <- ?app_assoc.
  - by rewrite lookup_insert_ne.
Qed.

(** [userMetrics[name]] holds the snapshots called [name], in the order of
    the sorted slice. *)
Lemma userMetrics_lookup (ms : list MetricSnapshot) (name : string) :
  default [] (foldl group_step ∅ ms !! name) = group_of name ms.
Proof.
  rewrite group_lookup, lookup_empty. by destruct (group_of name ms).
Qed.

Lemma group_of_nil (name : string) (ms : list MetricSnapshot) :
  group_of name ms = [] ↔ name ∉ map Name ms.
Proof.
  induction ms as [|m ms IH]. { split; [intros _; apply not_elem_of_nil|done]. }
  rewrite group_of_cons. cbn [map]. rewrite not_elem_of_cons.
  destruct (decide (Name m = name)) as [->|Hne].
  - split; [done|]. by intros [? _].
  - rewrite IH. split; [intros; split; [congruence|done]|by intros [_ ?]].
Qed.

Lemma userMetrics_keys (ms : list MetricSnapshot) :
  (map_to_list (foldl group_step ∅ ms)).*1 ≡ₚ remove_dups (map Name ms).
Proof.
  apply NoDup_Permutation.
  - apply NoDup_fst_map_to_list.
  - apply NoDup_remove_dups.
  - intros name. rewrite elem_of_remove_dups, list_elem_of_fmap. split.
    + intros [[n g] [-> Hin]]. apply elem_of_map_to_list in Hin.
      rewrite group_lookup, lookup_empty in Hin. cbn [fst].
      destruct (decide (n ∈ map Name ms)) as [|Hout]; [done|].
      apply group_of_nil in Hout. by rewrite Hout in Hin.
    + intros Hin. exists (name, group_of name ms). split; [done|].
      apply elem_of_map_to_list. rewrite group_lookup, lookup_empty.
      destruct (group_of name ms) eqn:Hg; [|done].
      by apply group_of_nil in Hg.
Qed.

Lemma group_names_Permutation (ms ms' : list MetricSnapshot) :
  ms ≡ₚ ms' → group_names ms = group_names ms'.
Proof.
  intros Hperm. apply sort_Strings_unique, NoDup_Permutation;
    [apply NoDup_remove_dups..|].
  intros name. by rewrite !elem_of_remove_dups, Hperm.
Qed.

Section Groups.
Variable FormatFloat : float64 → string.
Variable order : MapOrder.

(** The group of every name in the key list has a first snapshot. *)
Lemma group_of_member (name : string) (ms : list MetricSnapshot) :
  name ∈ group_names ms → ∃ m rest, group_of name ms = m :: rest ∧ Name m = name.
Proof.
  unfold group_names. rewrite sort_Strings_Permutation, elem_of_remove_dups.
  intros Hin. destruct (group_of name ms) as [|m rest] eqn:Hg.
  - by apply group_of_nil in Hg.
  - exists m, rest. split; [done|].
    assert (Hm : m ∈ group_of name ms) by (rewrite Hg; left).
    unfold group_of in Hm. by apply list_elem_of_filter in Hm as [? _].
Qed.

(** The encoder walks the names in ascending order and writes each group,
    its snapshots in the order of the sorted slice. *)
Lemma translate_spec (w : string) (ms : list MetricSnapshot) :
  translateMetricsToPrometheusTextFormat FormatFloat order w ms
  = (SliceStable snapshot_less ms,
     foldl (λ r name, w ← r;
                      translateMetrics FormatFloat order w
                        (group_of name (SliceStable snapshot_less ms)))
           (Ok w) (group_names ms)).
Proof.
  unfold translateMetricsToPrometheusTextFormat. f_equal.
  assert (sort_Strings (Keys order (foldl group_step ∅ (SliceStable snapshot_less ms)))
          = group_names ms) as ->.
  { rewrite <- (group_names_Permutation _ _ (SliceStable_Permutation ms)).
    apply sort_Strings_unique. rewrite Keys_Permutation. apply userMetrics_keys. }
  generalize (Ok w). induction (group_names ms) as [|name names IH]; intros r; [done|].
  cbn [foldl]. rewrite IH. by rewrite userMetrics_lookup.
Qed.

End Groups.

(** The buffer does not depend on the order in which Go walks the maps. *)
Lemma translateMetrics_order (FormatFloat : float64 → string) (o o' : MapOrder)
    (w : string) (metrics : list MetricSnapshot) :
  translateMetrics FormatFloat o w metrics = translateMetrics FormatFloat o' w metrics.
Proof.
  destruct metrics as [|m rest]; [done|]. by rewrite !translateMetrics_spec.
Qed.

Lemma translate_order (FormatFloat : float64 → string) (o o' : MapOrder)
    (w : string) (ms : list MetricSnapshot) :
  translateMetricsToPrometheusTextFormat FormatFloat o w ms
  = translateMetricsToPrometheusTextFormat FormatFloat o' w ms.
Proof.
  rewrite !translate_spec. f_equal.
  generalize (Ok w). induction (group_names ms) as [|name names IH]; intros r; [done|].
  cbn [foldl]. rewrite IH. f_equal. destruct r; [|done].
  apply translateMetrics_order.
Qed.

End GroupFacts.

(** ** Comparing texts

    [text_norm] unfolds the description of the output, evaluates its
    closed parts and brings both sides to one shape: appends nested to
    the right, literals spelled out byte by byte. *)

Ltac eval_at t :=
  let v := eval vm_compute in t in
  replace t with v by (vm_compute; reflexivity).

Ltac eval_closed :=
  repeat match goal with
  | |- context [label_names ?m] => progress eval_at (label_names m)
  | |- context [IsInf ?f] => progress eval_at (IsInf f)
  | |- context [uint64_sum ?l] => progress eval_at (uint64_sum l)
  | |- context [String.eqb ?a ?b] => progress eval_at (String.eqb a b)
  | |- context [escape ?a] => progress eval_at (escape a)
  | |- context [@lookup _ _ (gmap string string) _ ?k ?m] =>
      progress eval_at (@lookup _ _ (gmap string string) _ k m)
  end.

Ltac text_norm :=
  unfold header_text, help_line, body_text, value_text, histogram_text,
    bucket_lines, bucket_line, total_count, entry_text, label_block,
    label_items, label_pair, extra_pair, nl, dquote, backslash, Inf;
  cbn [Name Help Type_ Labels Bounds Counts Value type_keyword String.concat
       imap existsb length take orb negb andb map app joined];
  eval_closed;
  cbn [map app joined orb negb andb default];
  eval_closed;
  repeat (rewrite ?StringFacts.append_assoc, ?StringFacts.append_cons,
                  ?StringFacts.append_nil_l, ?StringFacts.append_nil_r).

(** ** The histogram lines *)

Module HistogramClaims.
Import StringFacts OrderFacts WriterFacts SeriesFacts Examples.

Lemma uint64_sum_mod (counts : list Z) :
  uint64_sum counts = Z_sum counts mod uint64_modulus.
Proof.
  induction counts as [|c counts IH] using rev_ind; [reflexivity|].
  rewrite uint64_sum_snoc, IH. unfold uint64_add, Z_sum.
  rewrite foldr_app. cbn [foldr].
  assert (Hshift : ∀ (l : list Z) (a : Z), foldr Z.add a l = foldr Z.add 0 l + a).
  { clear. induction l as [|x l IHl]; intros a; cbn [foldr]; [lia|].
    rewrite IHl. lia. }
  rewrite (Hshift counts (c + 0)), Z.add_0_r.
  by rewrite Zplus_mod_idemp_l.
Qed.

(** While the counts add up to less than [2^64], the running sum in
    [uint64] is their sum. *)
Lemma uint64_sum_exact (counts : list Z) :
  Forall (λ c, 0 ≤ c) counts → Z_sum counts < uint64_modulus →
  uint64_sum counts = Z_sum counts.
Proof.
  intros Hpos Hlt. rewrite uint64_sum_mod. apply Z.mod_small. split; [|done].
  clear Hlt. induction Hpos as [|c counts Hc _ IH]; cbn [Z_sum foldr]; [done|].
  unfold Z_sum in IH. lia.
Qed.

(** What the encoder writes for a histogram snapshot whose counts are one
    more than its bounds: one [_bucket] line for each bound, with the
    running sum of the counts up to that bound; where no bound is [+Inf],
    one more [_bucket] line for [+Inf] with the sum of all the counts;
    the [_sum] line; the [_count] line with the sum of all the counts. *)
Lemma histogram_series_spec (FormatFloat : float64 → string) (o : MapOrder)
    (w : string) (len_metrics idx : nat) (metric : MetricSnapshot) :
  length (Counts metric) = S (length (Bounds metric)) →
  translate_series FormatFloat o w true len_metrics idx metric
  = Ok (w +:+ String.concat ""
                (imap (λ i bound,
                         entry_text FormatFloat (Name metric) "_bucket"
                           (Labels metric) "le" bound
                           (float64_of_Z (uint64_sum (take (S i) (Counts metric)))))
                      (Bounds metric))
          +:+ (if existsb IsInf (Bounds metric) then ""
               else entry_text FormatFloat (Name metric) "_bucket"
                      (Labels metric) "le" Inf
                      (float64_of_Z (uint64_sum (Counts metric))))
          +:+ entry_text FormatFloat (Name metric) "_sum" (Labels metric)
                "" 0%float (Value metric)
          +:+ entry_text FormatFloat (Name metric) "_count" (Labels metric)
                "" 0%float (float64_of_Z (uint64_sum (Counts metric)))
          +:+ (if negb (idx =? len_metrics - 1)%nat then nl else "")).
Proof.
  intros Hlen. rewrite translate_series_spec. unfold series_text.
  rewrite (proj2 (Nat.ltb_lt _ _)) by lia. rewrite result_bind_Ok.
  unfold histogram_text, bucket_lines, bucket_line, total_count.
  rewrite <- Hlen, firstn_all, !append_assoc. reflexivity.
Qed.

(** C1.  The encoder at a histogram whose bounds end in [+Inf] and whose
    overflow count is not zero ([len(counts) == len(bounds) + 1] holds):
    the [+Inf] bucket line carries the running sum up to that bound, 1,
    and the [_count] line carries the grand total, 2.  The [+Inf] bucket
    does not equal the grand total here, against the format's rule quoted
    in [translateMetrics] ("Its value must be identical to the value of
    x_count"). *)
Theorem inf_bound_bucket_misses_overflow (FormatFloat : float64 → string)
    (o : MapOrder) (w : string) :
  length (Counts inf_bound_histogram) = S (length (Bounds inf_bound_histogram))
  ∧ existsb IsInf (Bounds inf_bound_histogram) = true
  ∧ uint64_sum (Counts inf_bound_histogram) = 2
  ∧ translateMetrics FormatFloat o w [inf_bound_histogram]
    = Ok (w +:+ "# TYPE h histogram" +:+ nl
            +:+ "h_bucket{le=" +:+ dquote +:+ FormatFloat Inf +:+ dquote +:+ "} "
                +:+ FormatFloat (float64_of_Z 1) +:+ nl
            +:+ "h_sum " +:+ FormatFloat infinity +:+ nl
            +:+ "h_count " +:+ FormatFloat (float64_of_Z 2) +:+ nl
            +:+ nl)
  ∧ float64_of_Z 1 ≠ float64_of_Z 2
  ∧ translateMetrics fmt map_order_id "" [inf_bound_histogram]
    = Ok ("# TYPE h histogram" +:+ nl
            +:+ "h_bucket{le=" +:+ dquote +:+ "+Inf" +:+ dquote +:+ "} 1" +:+ nl
            +:+ "h_sum +Inf" +:+ nl
            +:+ "h_count 2" +:+ nl
            +:+ nl).
Proof.
  repeat split; try reflexivity.
  - rewrite translateMetrics_spec. unfold inf_bound_histogram, histogram_snapshot.
    cbn [Type_ is_histogram series_blocks series_text Bounds Counts length
         Nat.ltb Nat.leb].
    rewrite !result_bind_Ok. text_norm. reflexivity.
  - vm_compute. discriminate.
Qed.

End HistogramClaims.

(** ** Labels, headers and separators *)

Module EncoderClaims.
Import StringFacts OrderFacts WriterFacts SeriesFacts GroupFacts Examples.

Lemma series_text_nl (FormatFloat : float64 → string) (isHistogram : bool)
    (metric : MetricSnapshot) (t : string) :
  series_text FormatFloat isHistogram metric = Ok t → ∃ t', t = t' +:+ nl.
Proof.
  unfold series_text, histogram_text, value_text, entry_text.
  destruct isHistogram.
  - destruct (_ <? _)%nat; [|done]. intros [= <-].
    eexists. rewrite <- !append_assoc. reflexivity.
  - intros [= <-]. eexists. rewrite <- !append_assoc. reflexivity.
Qed.

Lemma series_blocks_nl (FormatFloat : float64 → string) (isHistogram : bool)
    (metrics : list MetricSnapshot) (ts : list string) :
  series_blocks FormatFloat isHistogram metrics = Ok ts →
  Forall (λ t, ∃ t', t = t' +:+ nl) ts.
Proof.
  revert ts. induction metrics as [|m metrics IH]; intros ts; simpl.
  - intros [= <-]. constructor.
  - destruct (series_text FormatFloat isHistogram m) as [t|] eqn:Ht; [|done].
    destruct (series_blocks FormatFloat isHistogram metrics) as [ts'|]; [|done].
    intros [= <-]. constructor; [by eapply series_text_nl|by apply IH].
Qed.

Lemma series_text_same (FormatFloat : float64 → string) (isHistogram : bool)
    (a b : MetricSnapshot) :
  same_series a b →
  series_text FormatFloat isHistogram a = series_text FormatFloat isHistogram b.
Proof.
  intros (Hn & Hl & Hv & Hb & Hc).
  unfold series_text, histogram_text, value_text, bucket_lines, bucket_line,
    total_count.
  by rewrite Hn, Hl, Hv, Hb, Hc.
Qed.

Lemma series_blocks_same (FormatFloat : float64 → string) (isHistogram : bool)
    (ms ms' : list MetricSnapshot) :
  Forall2 same_series ms ms' →
  series_blocks FormatFloat isHistogram ms = series_blocks FormatFloat isHistogram ms'.
Proof.
  induction 1 as [|a b ms ms' Hab _ IH]; [done|].
  cbn [series_blocks]. by rewrite (series_text_same _ _ a b Hab), IH.
Qed.

(** C7.  A series line is the metric name, the suffix, the label block, a
    space, the value and a newline.  The label block lists the label names
    in strictly ascending bytewise order as [{name1="v1",name2="v2"}]; it
    is left out altogether when there is no label and no extra label; the
    extra label comes after all the labels of the snapshot, and the
    [_bucket] lines of a histogram are written with the extra label [le]
    of the bound; and every label value is escaped byte by
    byte: backslash to two backslashes, newline to backslash-n,
    double quote to backslash-double-quote. *)
Theorem writeLabels_spec (FormatFloat : float64 → string) (o : MapOrder)
    (w : string) (labels : gmap string string)
    (extraLabelName : string) (extraLabelItem : float64) :
  let names := label_names labels in
  let pairs :=
    map (λ l, l +:+ "=" +:+ dquote
                +:+ escaper (default "" (labels !! l)) +:+ dquote) names in
  let extra :=
    extraLabelName +:+ "=" +:+ dquote
      +:+ FormatFloat extraLabelItem +:+ dquote in
  names ≡ₚ (map_to_list labels).*1
  ∧ StronglySorted string_lt names
  ∧ writeLabels FormatFloat o w labels extraLabelName extraLabelItem
    = (if decide (labels = ∅ ∧ extraLabelName = "") then w
       else w +:+ "{"
              +:+ String.concat ","
                    (pairs ++ if decide (extraLabelName = "") then []
                              else [extra])
              +:+ "}")
  ∧ (∀ metricName value suffix,
       writeEntry FormatFloat o w metricName value suffix labels
         extraLabelName extraLabelItem
       = w +:+ metricName +:+ suffix
           +:+ writeLabels FormatFloat o "" labels extraLabelName extraLabelItem
           +:+ " " +:+ FormatFloat value +:+ nl)
  ∧ (∀ metric idx bound bounds c st,
       Counts metric !! idx = Some c →
       buckets_loop FormatFloat o metric labels idx (bound :: bounds) st
       = buckets_loop FormatFloat o metric labels (S idx) bounds
           {| bs_w := bs_w st +:+ Name metric +:+ "_bucket"
                        +:+ writeLabels FormatFloat o "" labels "le" bound
                        +:+ " "
                        +:+ FormatFloat (float64_of_Z (uint64_add (bs_count st) c))
                        +:+ nl;
              bs_count := uint64_add (bs_count st) c;
              bs_hasInf := if IsInf bound then true else bs_hasInf st |})
  ∧ escaper "" = ""
  ∧ ∀ c s, escaper (String c s)
           = (if Ascii.eqb c "092" then backslash +:+ backslash
              else if Ascii.eqb c "010" then backslash +:+ "n"
              else if Ascii.eqb c "034" then backslash +:+ dquote
              else String c "") +:+ escaper s.
Proof.
  cbn zeta. split; [apply sort_Strings_Permutation|].
  split; [apply sort_Strings_ascending, NoDup_fst_map_to_list|].
  split; [|split; [|split; [|split]]].
  - rewrite writeLabels_text. unfold label_block, label_items.
    rewrite (map_ext (λ l, l +:+ "=" +:+ dquote
                             +:+ escaper (default "" (labels !! l)) +:+ dquote)
                     (label_pair labels))
      by (intros l; unfold label_pair; by rewrite escaper_escape).
    destruct (decide (extraLabelName = "")) as [->|Hextra].
    + cbn [String.eqb]. rewrite app_nil_r.
      destruct (label_names labels) as [|l names] eqn:Hnames.
      * apply label_names_nil, map_size_empty_iff in Hnames.
        rewrite decide_True by done. apply append_nil_r.
      * rewrite decide_False.
        -- cbn [map]. by rewrite joined_concat, !append_assoc.
        -- intros [Hempty _]. apply map_size_empty_iff, label_names_nil in Hempty.
           by rewrite Hempty in Hnames.
    + rewrite (proj2 (String.eqb_neq _ _) Hextra).
      rewrite decide_False by (by intros [_ ?]).
      destruct (map _ _ ++ _) as [|x items] eqn:Hitems.
      { by destruct (map (label_pair labels) (label_names labels)). }
      by rewrite joined_concat, !append_assoc.
  - intros metricName value suffix.
    by rewrite writeEntry_text, writeLabels_text.
  - intros metric idx bound bounds c st Hc. cbn [buckets_loop]. rewrite Hc.
    rewrite writeEntry_text, writeLabels_text. unfold entry_text.
    by rewrite append_nil_l.
  - reflexivity.
  - intros c s. rewrite !escaper_escape. reflexivity.
Qed.

(** C8.  For a group whose first snapshot is a counter, a gauge or a
    histogram, the encoder writes the line [# HELP name help] if and only
    if the help text is not empty, then the one line [# TYPE name t] with
    [t] the keyword of that type, then the series and the closing blank
    line; the later snapshots of the group add nothing but their series
    lines, whatever their help text and type. *)
Theorem translateMetrics_header (FormatFloat : float64 → string) (o : MapOrder)
    (w : string) (metric : MetricSnapshot) (rest : list MetricSnapshot)
    (keyword : string) :
  type_keyword (Type_ metric) = Some keyword →
  (keyword = "counter" ∨ keyword = "gauge" ∨ keyword = "histogram")
  ∧ translateMetrics FormatFloat o w (metric :: rest)
    = (ts ← series_blocks FormatFloat (is_histogram (Type_ metric)) (metric :: rest);
       Ok (w +:+ (if decide (Help metric = "") then ""
                  else "# HELP " +:+ Name metric +:+ " " +:+ Help metric +:+ nl)
             +:+ "# TYPE " +:+ Name metric +:+ " " +:+ keyword +:+ nl
             +:+ body_text (is_histogram (Type_ metric)) ts +:+ nl))
  ∧ ∀ rest', Forall2 same_series rest rest' →
             translateMetrics FormatFloat o w (metric :: rest')
             = translateMetrics FormatFloat o w (metric :: rest).
Proof.
  intros Hkw. split; [|split].
  - destruct (Type_ metric); simplify_eq/=; auto.
  - rewrite translateMetrics_spec. unfold header_text, help_line. rewrite Hkw.
    destruct (series_blocks _ _ _) as [ts|]; [|done]. cbn. f_equal.
    destruct (decide (Help metric = "")) as [->|Hhelp].
    + cbn [String.eqb]. by rewrite !append_assoc.
    + rewrite (proj2 (String.eqb_neq _ _) Hhelp). by rewrite !append_assoc.
  - intros rest' Hsame. rewrite !translateMetrics_spec.
    rewrite (series_blocks_same _ _ (metric :: rest') (metric :: rest)); [done|].
    constructor; [done|]. clear -Hsame. induction Hsame as [|a b ?? Hab ? IH];
      constructor; [|done].
    destruct Hab as (?&?&?&?&?). by repeat split.
Qed.

(** C9.  In a histogram group every series but the last is followed by a
    blank line; in a group of another type the series follow one another;
    and every group ends with one blank line.  (Each series ends with a
    newline, so a newline written after it is a blank line.) *)
Theorem translateMetrics_separators (FormatFloat : float64 → string)
    (o : MapOrder) (w : string) (metric : MetricSnapshot)
    (rest : list MetricSnapshot) :
  translateMetrics FormatFloat o w (metric :: rest)
  = (ts ← series_blocks FormatFloat (is_histogram (Type_ metric)) (metric :: rest);
     Ok (w +:+ header_text metric
           +:+ (if is_histogram (Type_ metric) then String.concat nl ts
                else String.concat "" ts)
           +:+ nl))
  ∧ (∀ ts, series_blocks FormatFloat (is_histogram (Type_ metric)) (metric :: rest)
           = Ok ts →
           length ts = S (length rest) ∧ Forall (λ t, ∃ t', t = t' +:+ nl) ts)
  ∧ (Type_ metric = MetricType_HISTOGRAM ∨ is_histogram (Type_ metric) = false).
Proof.
  split; [|split].
  - rewrite translateMetrics_spec. unfold body_text.
    by destruct (is_histogram (Type_ metric)).
  - intros ts Hts. split.
    + by rewrite (series_blocks_length _ _ _ _ Hts).
    + by eapply series_blocks_nl.
  - destruct (Type_ metric); auto.
Qed.


End EncoderClaims.

(** ** The order of the output *)

Module OrderClaims.
Import StringFacts OrderFacts WriterFacts SeriesFacts GroupFacts Examples.

Lemma group_names_ascending (ms : list MetricSnapshot) :
  StronglySorted string_lt (group_names ms).
Proof. apply sort_Strings_ascending, NoDup_remove_dups. Qed.

Lemma group_names_elem (ms : list MetricSnapshot) (name : string) :
  name ∈ group_names ms ↔ ∃ m, m ∈ ms ∧ Name m = name.
Proof.
  unfold group_names.
  rewrite sort_Strings_Permutation, elem_of_remove_dups, list_elem_of_fmap.
  split; intros (m & H1 & H2); exists m; by split.
Qed.

(** The claim as it stands fails: two snapshots with the same name and
    the same id are written in the order they came in. *)
Lemma same_key_permutation_changes_output :
  [same_key_first; same_key_second] ≡ₚ [same_key_second; same_key_first]
  ∧ (translateMetricsToPrometheusTextFormat fmt map_order_id ""
       [same_key_first; same_key_second]).2
    = Ok ("# TYPE a counter" +:+ nl +:+ "a 1" +:+ nl +:+ "a 2" +:+ nl +:+ nl)
  ∧ (translateMetricsToPrometheusTextFormat fmt map_order_id ""
       [same_key_second; same_key_first]).2
    = Ok ("# TYPE a counter" +:+ nl +:+ "a 2" +:+ nl +:+ "a 1" +:+ nl +:+ nl)
  ∧ (translateMetricsToPrometheusTextFormat fmt map_order_id ""
       [same_key_first; same_key_second]).2
    ≠ (translateMetricsToPrometheusTextFormat fmt map_order_id ""
       [same_key_second; same_key_first]).2.
Proof.
  split; [apply Permutation_swap|].
  split; [vm_compute; reflexivity|].
  split; [vm_compute; reflexivity|].
  vm_compute. discriminate.
Qed.

(** C2, amended.  For a snapshot list no two of whose snapshots agree on
    both name and id, and for every permutation of it, the encoder leaves
    the same slice and writes the same text: the slice is sorted by name,
    ties broken by id, and the text is that of the groups in strictly
    ascending order of their names, each group holding its snapshots in
    the order of the sorted slice.  Two snapshots called [requests] with
    ids 2 and 1, given in that order, are written as one group with the
    id 1 series before the id 2 series. *)
Theorem translate_permutation_invariant (FormatFloat : float64 → string)
    (o : MapOrder) (w : string) (ms ms' : list MetricSnapshot) :
  (∀ x y, x ∈ ms → y ∈ ms → Name x = Name y → Id x = Id y → x = y) →
  ms ≡ₚ ms' →
  let out := translateMetricsToPrometheusTextFormat FormatFloat o w ms in
  translateMetricsToPrometheusTextFormat FormatFloat o w ms' = out
  ∧ out.1 ≡ₚ ms
  ∧ StronglySorted snapshot_le out.1
  ∧ StronglySorted string_lt (group_names ms)
  ∧ (∀ name, name ∈ group_names ms ↔ ∃ m, m ∈ ms ∧ Name m = name)
  ∧ out.2 = foldl (λ r name, w ← r;
                             translateMetrics FormatFloat o w (group_of name out.1))
                  (Ok w) (group_names ms)
  ∧ ∀ a b, Name a = "requests" → Name b = "requests" → Id a = 2 → Id b = 1 →
      translateMetricsToPrometheusTextFormat FormatFloat o w [a; b]
      = ([b; a],
         ts ← series_blocks FormatFloat (is_histogram (Type_ b)) [b; a];
         Ok (w +:+ header_text b
               +:+ body_text (is_histogram (Type_ b)) ts +:+ nl)).
Proof.
  intros Hkey Hperm. cbn zeta. rewrite !translate_spec. cbn [fst snd].
  split; [|split; [|split; [|split; [|split; [|split]]]]].
  - rewrite <- (SliceStable_unique ms ms' Hkey Hperm).
    by rewrite <- (group_names_Permutation ms ms' Hperm).
  - apply SliceStable_Permutation.
  - apply SliceStable_sorted.
  - apply group_names_ascending.
  - apply group_names_elem.
  - reflexivity.
  - intros a b Ha Hb Hia Hib.
    assert (Hsorted : SliceStable snapshot_less [a; b] = [b; a]).
    { unfold SliceStable, insertionSort. cbn [foldl insert_back].
      unfold snapshot_less. rewrite Ha, Hb, Hia, Hib. reflexivity. }
    rewrite translate_spec, Hsorted. f_equal.
    unfold group_names. cbn [map]. rewrite Ha, Hb.
    replace (sort_Strings (remove_dups ["requests"; "requests"]))
      with ["requests"] by (vm_compute; reflexivity).
    cbn [foldl]. rewrite result_bind_Ok.
    rewrite !group_of_cons, Ha, Hb.
    rewrite !decide_True by done. unfold group_of. rewrite filter_nil.
    apply translateMetrics_spec.
Qed.

(** The encoder at a list of three snapshots with different keys and at a
    rearrangement of it. *)
Lemma translate_permutation_invariant_witness :
  translateMetricsToPrometheusTextFormat fmt map_order_id ""
    [latency_a; requests_id1; requests_id2]
  = translateMetricsToPrometheusTextFormat fmt map_order_id ""
      [requests_id2; latency_a; requests_id1].
Proof.
  apply (translate_permutation_invariant fmt map_order_id ""
           [requests_id2; latency_a; requests_id1]
           [latency_a; requests_id1; requests_id2]).
  - intros x y Hx Hy Hname Hid.
    repeat (apply elem_of_cons in Hx as [->|Hx]); [| | |by apply elem_of_nil in Hx];
      (repeat (apply elem_of_cons in Hy as [->|Hy]); [| | |by apply elem_of_nil in Hy]);
      first [reflexivity | discriminate Hname | discriminate Hid].
  - apply (Permutation_cons_append [latency_a; requests_id1] requests_id2).
Defined.

(** The claim as it stands fails: the encoder sorts the slice it is given. *)
Lemma translate_reorders_input :
  (translateMetricsToPrometheusTextFormat fmt map_order_id ""
     [requests_id2; requests_id1]).1
  = [requests_id1; requests_id2]
  ∧ [requests_id1; requests_id2] ≠ [requests_id2; requests_id1].
Proof.
  split; [vm_compute; reflexivity|].
  intros H. apply (f_equal (map Id)) in H. vm_compute in H. discriminate H.
Qed.

(** C3, amended.  The text the encoder writes and the slice it leaves are
    a function of the buffer and of the snapshot list alone: the order in
    which Go walks the maps plays no part.  The encoder sorts the caller's
    slice in place: afterwards the slice holds the same snapshots, sorted
    by name and then id, snapshots of the same name and id in the order
    they had; it is unchanged exactly when it was sorted before. *)
Theorem translate_deterministic_sorts_in_place (FormatFloat : float64 → string)
    (o o' : MapOrder) (w : string) (ms : list MetricSnapshot) :
  let out := translateMetricsToPrometheusTextFormat FormatFloat o w ms in
  translateMetricsToPrometheusTextFormat FormatFloat o' w ms = out
  ∧ out.1 ≡ₚ ms
  ∧ StronglySorted snapshot_le out.1
  ∧ (∀ name id, filter (λ m, Name m = name ∧ Id m = id) out.1
                = filter (λ m, Name m = name ∧ Id m = id) ms)
  ∧ (out.1 = ms ↔ StronglySorted snapshot_le ms).
Proof.
  cbn zeta. split; [apply translate_order|].
  rewrite translate_spec. cbn [fst].
  split; [apply SliceStable_Permutation|].
  split; [apply SliceStable_sorted|]. split.
  - intros name id. apply (insertionSort_stable snapshot_less).
    intros a b [Ha Hia] [Hb Hib]. unfold snapshot_less.
    rewrite Ha, Hb, String.eqb_refl. cbn [negb]. apply Z.ltb_ge. lia.
  - split.
    + intros <-. apply SliceStable_sorted.
    + apply SliceStable_sorted_id.
Qed.

End OrderClaims.

(** ** The complex maps *)

Module ComplexMapClaims.
Import Examples.

(** C4.  [complexMap.Add(name, item, c, g, h)] calls the engine, in this
    order and on the series of the label [(name, item)]: [Add(c)] on the
    counter map if and only if [c > 0]; [Add(g)] on the gauge map if and
    only if [g != 0]; [Put] on the histogram map if and only if [h >= 0],
    the value put being [h.Seconds()].  It does nothing else.  A zero
    duration is put as 0, a duration of 1.5e9 nanoseconds as 1.5; with
    [c], [g] and [h] all zero the one call is [Put(0)]. *)
Theorem complexMap_Add_spec (it : complexMap) (name item : string)
    (c g : float64) (h : Z) (σ : World) :
  let l := {| Label_Name := name; Label_Item := item |} in
  (∃ counter_calls gauge_calls histogram_calls,
     complexMap_Add it name item c g h σ
     = {| complexMetrics := complexMetrics σ;
          metricMaps := metricMaps σ;
          trace := trace σ ++ counter_calls ++ gauge_calls ++ histogram_calls |}
     ∧ (PrimFloat.ltb 0%float c = true ∧ counter_calls = [EvAdd (counter it) l c]
        ∨ PrimFloat.ltb 0%float c = false ∧ counter_calls = [])
     ∧ (PrimFloat.eqb g 0%float = false ∧ gauge_calls = [EvAdd (gauge it) l g]
        ∨ PrimFloat.eqb g 0%float = true ∧ gauge_calls = [])
     ∧ (0 ≤ h ∧ histogram_calls = [EvPut (histogram it) l (Seconds h)]
        ∨ h < 0 ∧ histogram_calls = []))
  ∧ Seconds 0 = 0%float
  ∧ Seconds 1500000000 = 1.5%float
  ∧ complexMap_Add it name item 0%float 0%float 0 σ
    = emit (EvPut (histogram it) l 0%float) σ.
Proof.
  cbn zeta. split; [|repeat split; reflexivity].
  unfold complexMap_Add, emit.
  exists (if PrimFloat.ltb 0%float c
          then [EvAdd (counter it) {| Label_Name := name; Label_Item := item |} c]
          else []),
         (if negb (PrimFloat.eqb g 0%float)
          then [EvAdd (gauge it) {| Label_Name := name; Label_Item := item |} g]
          else []),
         (if 0 <=? h
          then [EvPut (histogram it) {| Label_Name := name; Label_Item := item |}
                  (Seconds h)]
          else []).
  split; [|split; [|split]].
  - destruct σ as [reg maps tr].
    destruct (PrimFloat.ltb 0%float c), (PrimFloat.eqb g 0%float), (0 <=? h);
      cbn [complexMetrics metricMaps trace negb]; f_equal;
      rewrite <- ?app_assoc, ?app_nil_r; reflexivity.
  - destruct (PrimFloat.ltb 0%float c); auto.
  - destruct (PrimFloat.eqb g 0%float); auto.
  - destruct (Z.leb_spec 0 h); auto.
Qed.

Lemma RegisterComplexMap_known (name help : string) (buckets : list float64)
    (σ : World) (m : complexMap) :
  complexMetrics σ !! name = Some m →
  RegisterComplexMap name help buckets σ
  = (m, {| complexMetrics := complexMetrics σ;
           metricMaps := metricMaps σ;
           trace := trace σ ++ [EvLock; EvLookup name; EvUnlock] |}).
Proof.
  intros Hm. unfold RegisterComplexMap, emit. cbn [complexMetrics metricMaps trace].
  rewrite Hm. cbn [complexMetrics metricMaps trace].
  by rewrite <- !app_assoc.
Qed.

Lemma RegisterComplexMap_new (name help : string) (buckets : list float64)
    (σ : World) :
  complexMetrics σ !! name = None →
  let c := {| cfg_type := MetricType_COUNTER; cfg_name := name +:+ "_counter";
              cfg_help := help; cfg_bounds := [] |} in
  let g := {| cfg_type := MetricType_GAUGE; cfg_name := name +:+ "_gauge";
              cfg_help := help; cfg_bounds := [] |} in
  let h := {| cfg_type := MetricType_HISTOGRAM; cfg_name := name +:+ "_histogram";
              cfg_help := help; cfg_bounds := buckets |} in
  let m := {| counter := length (metricMaps σ);
              gauge := S (length (metricMaps σ));
              histogram := S (S (length (metricMaps σ))) |} in
  RegisterComplexMap name help buckets σ
  = (m, {| complexMetrics := <[name := m]> (complexMetrics σ);
           metricMaps := metricMaps σ ++ [c; g; h];
           trace := trace σ ++ [EvLock; EvLookup name; EvRegisterMap c;
                                EvRegisterMap g; EvRegisterMap h;
                                EvStore name; EvUnlock] |}).
Proof.
  intros Hnone. cbn zeta.
  unfold RegisterComplexMap, emit, metrics_RegisterMap.
  cbn [complexMetrics metricMaps trace]. rewrite Hnone.
  cbn [complexMetrics metricMaps trace fst snd].
  rewrite !length_app. cbn [length]. rewrite !Nat.add_1_r.
  by rewrite <- !app_assoc.
Qed.

(** An entry of the registry is never replaced or removed. *)
Lemma RegisterComplexMap_keeps (name name' help : string) (buckets : list float64)
    (σ : World) (m : complexMap) :
  complexMetrics σ !! name = Some m →
  complexMetrics (RegisterComplexMap name' help buckets σ).2 !! name = Some m.
Proof.
  intros Hm. destruct (complexMetrics σ !! name') as [m'|] eqn:Hname'.
  - by rewrite (RegisterComplexMap_known _ _ _ _ _ Hname').
  - rewrite (RegisterComplexMap_new _ _ _ _ Hname'). cbn [snd complexMetrics].
    rewrite lookup_insert_ne; [done|]. intros ->. congruence.
Qed.




End ComplexMapClaims.

(** ** The encoder at work *)

Module EncoderExamples.
Import Examples EncoderClaims.

Example writeLabels_escaped :
  writeLabels fmt map_order_rev "" escaped_labels "le" 2%float
  = "{note=" +:+ quoted ("x\ny\" +:+ dquote)
    +:+ ",path=" +:+ quoted "a\\b" +:+ ",le=" +:+ quoted "2" +:+ "}".
Proof. vm_compute. reflexivity. Qed.

Example writeLabels_none :
  writeLabels fmt map_order_id "requests" ∅ "" 0%float = "requests".
Proof. vm_compute. reflexivity. Qed.

(** A histogram group of two series: the header once, a blank line
    between the series, a blank line at the end. *)
Lemma translateMetrics_header_witness :
  translateMetrics fmt map_order_id "" [latency_a; latency_b] = Ok latency_text.
Proof.
  rewrite (proj1 (proj2 (translateMetrics_header fmt map_order_id ""
                           latency_a [latency_b] "histogram" eq_refl))).
  vm_compute. reflexivity.
Defined.


Example translate_all :
  translateMetricsToPrometheusTextFormat fmt map_order_rev ""
    [requests_id2; latency_b; requests_id1; latency_a]
  = ([latency_a; latency_b; requests_id1; requests_id2],
     Ok (latency_text
         +:+ lines ["# TYPE requests counter"; "requests 10"; "requests 20"; ""])).
Proof. vm_compute. reflexivity. Qed.

(** Counts that are too few for the bounds: the encoder panics. *)
Example translate_short_counts :
  translateMetrics fmt map_order_id ""
    [histogram_snapshot 1 "h" "" ∅ 0%float [1; 2]%float [1; 2]]
  = Panic "index out of range".
Proof. vm_compute. reflexivity. Qed.

End EncoderExamples.

(** ** More on the escaper *)

Module EscaperProperties.
Import StringFacts WriterFacts.

Lemma escape_char_cases (c : ascii) :
  (c = "092"%char ∧ escape_char c = String "092" (String "092" ""))
  ∨ (c = "010"%char ∧ escape_char c = String "092" (String "n" ""))
  ∨ (c = "034"%char ∧ escape_char c = String "092" (String "034" ""))
  ∨ (is_special c = false ∧ escape_char c = String c "").
Proof.
  unfold escape_char, is_special.
  destruct (Ascii.eqb_spec c "092") as [->|H1]; [by left|].
  destruct (Ascii.eqb_spec c "010") as [->|H2]; [by right; left|].
  destruct (Ascii.eqb_spec c "034") as [->|H3]; [by right; right; left|].
  by right; right; right.
Qed.

Lemma unescape_escape (s : string) : unescape (escape s) = s.
Proof.
  unfold unescape.
  induction s as [|c s IH]; [reflexivity|].
  cbn [escape].
  destruct (escape_char_cases c) as [[-> ->]|[[-> ->]|[[-> ->]|[Hc ->]]]].
  - rewrite !append_cons, append_nil_l. cbn. by rewrite IH.
  - rewrite !append_cons, append_nil_l. cbn. by rewrite IH.
  - rewrite !append_cons, append_nil_l. cbn. by rewrite IH.
  - rewrite append_cons, append_nil_l. cbn [unescape_from].
    unfold is_special in Hc. apply orb_false_elim in Hc as [Hc _].
    apply orb_false_elim in Hc as [Hc _]. by rewrite Hc, IH.
Qed.

(** X1.  A label value escaped by [escaper] and read back by the rule of
    the text format ([unescape]) is the value itself. *)
Theorem unescape_escaper (s : string) : unescape (escaper s) = s.
Proof. rewrite escaper_escape. apply unescape_escape. Qed.

Lemma escape_app (a b : string) : escape (a +:+ b) = escape a +:+ escape b.
Proof.
  induction a as [|c a IH]; [reflexivity|].
  rewrite append_cons. cbn [escape]. by rewrite IH, append_assoc.
Qed.

(** X2.  [escaper] works byte by byte: escaping a concatenation is
    concatenating the escaped parts, and two different values never
    escape to the same text. *)
Theorem escaper_app_inj :
  (∀ a b, escaper (a +:+ b) = escaper a +:+ escaper b)
  ∧ (∀ a b, escaper a = escaper b → a = b).
Proof.
  split.
  - intros a b. rewrite !escaper_escape. apply escape_app.
  - intros a b Heq. rewrite !escaper_escape in Heq.
    rewrite <- (unescape_escape a), <- (unescape_escape b). by rewrite Heq.
Qed.

Lemma length_append (a b : string) :
  String.length (a +:+ b) = (String.length a + String.length b)%nat.
Proof.
  induction a as [|c a IH]; [reflexivity|].
  rewrite append_cons. cbn [String.length]. by rewrite IH.
Qed.

Lemma length_escape (s : string) :
  String.length (escape s) = (String.length s + count_special s)%nat.
Proof.
  induction s as [|c s IH]; [reflexivity|].
  cbn [escape count_special String.length]. rewrite length_append, IH.
  destruct (escape_char_cases c) as [[-> ->]|[[-> ->]|[[-> ->]|[Hc ->]]]];
    [cbn; lia..|].
  rewrite Hc. cbn. lia.
Qed.

Lemma escape_plain (s : string) : count_special s = 0%nat → escape s = s.
Proof.
  induction s as [|c s IH]; [reflexivity|]. cbn [count_special escape].
  destruct (escape_char_cases c) as [[-> _]|[[-> _]|[[-> _]|[Hc ->]]]];
    [cbn; lia..|].
  rewrite Hc. intros Hs. by rewrite append_cons, append_nil_l, IH.
Qed.

Lemma escape_no_newline (s : string) :
  "010"%char ∉ list_ascii_of_string (escape s).
Proof.
  induction s as [|c s IH]; [apply not_elem_of_nil|]. cbn [escape].
  destruct (escape_char_cases c) as [[-> ->]|[[-> ->]|[[-> ->]|[Hc ->]]]];
    rewrite ?append_cons, append_nil_l; cbn [list_ascii_of_string];
    rewrite ?not_elem_of_cons; repeat split; try done.
  intros <-. done.
Qed.

(** X3.  The escaped value is longer than the value by one byte for each
    backslash, newline and double quote in it; it is the value itself
    exactly when the value has none of them; and it never holds a
    newline, so that a label value cannot break a series line. *)
Theorem escaper_length_newline (s : string) :
  String.length (escaper s) = (String.length s + count_special s)%nat
  ∧ (escaper s = s ↔ count_special s = 0%nat)
  ∧ "010"%char ∉ list_ascii_of_string (escaper s).
Proof.
  rewrite escaper_escape. split; [apply length_escape|]. split.
  - split; [|apply escape_plain].
    intros Heq. pose proof (length_escape s) as Hlen. rewrite Heq in Hlen. lia.
  - apply escape_no_newline.
Qed.

End EscaperProperties.

(** ** More on the encoder *)

Module EncoderProperties.
Import StringFacts OrderFacts WriterFacts SeriesFacts GroupFacts Examples.

(** X4.  The comparison the encoder sorts by is a strict weak order: no
    snapshot is less than itself, the comparison is asymmetric and
    transitive, and two snapshots are tied (neither is less than the
    other) exactly when they have the same name and the same id. *)
Theorem snapshot_less_strict_weak_order :
  (∀ a, snapshot_less a a = false)
  ∧ (∀ a b, snapshot_less a b = true → snapshot_less b a = false)
  ∧ (∀ a b c, snapshot_less a b = true → snapshot_less b c = true →
              snapshot_less a c = true)
  ∧ (∀ a b, snapshot_less a b = false ∧ snapshot_less b a = false
            ↔ Name a = Name b ∧ Id a = Id b).
Proof.
  split; [|split; [apply snapshot_less_asym|split]].
  - intros a. unfold snapshot_less. rewrite String.eqb_refl. apply Z.ltb_irrefl.
  - intros a b c Hab Hbc.
    destruct (snapshot_less a c) eqn:Hac; [done|].
    apply snapshot_less_asym, snapshot_less_false in Hbc.
    apply snapshot_less_false in Hac.
    pose proof (snapshot_le_trans _ _ _ Hbc Hac) as Hba.
    apply snapshot_less_false in Hba. congruence.
  - intros a b. rewrite !snapshot_less_false. unfold snapshot_le. split.
    + intros [[Hba|[Hn Hi]] [Hab|[Hn' Hi']]].
      * by rewrite (ltb_asym _ _ Hba) in Hab.
      * by rewrite Hn', ltb_irrefl in Hba.
      * by rewrite Hn, ltb_irrefl in Hab.
      * split; [done|lia].
    + intros [Hn Hi]. split; right; split; try done; lia.
Qed.

Lemma foldl_Panic {A B : Type} (f : A → B → result A) (msg : string) (l : list B) :
  foldl (λ r x, a ← r; f a x) (Panic msg) l = Panic msg.
Proof. induction l as [|x l IH]; [done|]. cbn [foldl]. apply IH. Qed.

Section Frame.
Variable FormatFloat : float64 → string.
Variable order : MapOrder.

Lemma translateMetrics_frame (w : string) (metrics : list MetricSnapshot) :
  translateMetrics FormatFloat order w metrics
  = t ← translateMetrics FormatFloat order "" metrics; Ok (w +:+ t).
Proof.
  destruct metrics as [|m rest]; [done|]. rewrite !translateMetrics_spec.
  destruct (series_blocks _ _ _) as [ts|msg]; [|done].
  rewrite !result_bind_Ok. by rewrite append_nil_l.
Qed.

Lemma groups_frame (grp : string → list MetricSnapshot) (names : list string)
    (w u : string) :
  foldl (λ r name, w ← r; translateMetrics FormatFloat order w (grp name))
        (Ok (w +:+ u)) names
  = t ← foldl (λ r name, w ← r; translateMetrics FormatFloat order w (grp name))
              (Ok u) names;
    Ok (w +:+ t).
Proof.
  revert u. induction names as [|name names IH]; intros u; [done|].
  cbn [foldl]. rewrite !result_bind_Ok.
  rewrite (translateMetrics_frame (w +:+ u)), (translateMetrics_frame u).
  destruct (translateMetrics FormatFloat order "" (grp name)) as [t|msg].
  - rewrite !result_bind_Ok, append_assoc. apply IH.
  - cbn.
    by rewrite !(foldl_Panic (λ w name, translateMetrics FormatFloat order w (grp name))).
Qed.

(** X5.  The encoder only appends: what the buffer held before the call
    stays at the front, and the text added does not depend on it. *)
Theorem translate_appends (w : string) (ms : list MetricSnapshot) :
  translateMetricsToPrometheusTextFormat FormatFloat order w ms
  = ((translateMetricsToPrometheusTextFormat FormatFloat order "" ms).1,
     t ← (translateMetricsToPrometheusTextFormat FormatFloat order "" ms).2;
     Ok (w +:+ t))
  ∧ ∀ metrics,
      translateMetrics FormatFloat order w metrics
      = t ← translateMetrics FormatFloat order "" metrics; Ok (w +:+ t).
Proof.
  split; [|apply translateMetrics_frame].
  rewrite !translate_spec. cbn [fst snd]. f_equal.
  rewrite <- (append_nil_r w) at 1. apply groups_frame.
Qed.

Lemma series_text_panics (isHistogram : bool) (m : MetricSnapshot) :
  panics (series_text FormatFloat isHistogram m)
  ↔ isHistogram = true ∧ short_counts m.
Proof.
  unfold series_text, short_counts, panics. destruct isHistogram.
  - destruct (Nat.ltb_spec (length (Bounds m)) (length (Counts m))).
    + split; [by intros [? ?]|]. intros [_ ?]. lia.
    + split; [done|]. intros _. by eexists.
  - split; [by intros [? ?]|]. by intros [? _].
Qed.

Lemma series_blocks_panics (isHistogram : bool) (ms : list MetricSnapshot) :
  panics (series_blocks FormatFloat isHistogram ms)
  ↔ isHistogram = true ∧ Exists short_counts ms.
Proof.
  induction ms as [|m ms IH].
  - split; [by intros [? ?]|]. intros [_ H]. by apply Exists_nil in H.
  - cbn [series_blocks]. rewrite Exists_cons.
    pose proof (series_text_panics isHistogram m) as Hm.
    destruct (series_text FormatFloat isHistogram m) as [t|msg].
    + rewrite result_bind_Ok.
      destruct (series_blocks FormatFloat isHistogram ms) as [ts|msg'].
      * split; [by intros [? ?]|]. intros [Hh [Hs|Hs]].
        -- destruct (proj2 Hm (conj Hh Hs)) as [? ?]. done.
        -- destruct (proj2 IH (conj Hh Hs)) as [? ?]. done.
      * split; [|intros _; by eexists]. intros _.
        destruct (proj1 IH) as [Hh Hs]; [by eexists|]. auto.
    + split; [|intros _; by eexists]. intros _.
      destruct (proj1 Hm) as [Hh Hs]; [by eexists|]. auto.
Qed.

Lemma translateMetrics_panics_iff (w : string) (metrics : list MetricSnapshot) :
  panics (translateMetrics FormatFloat order w metrics)
  ↔ metrics = []
    ∨ ∃ m rest, metrics = m :: rest ∧ Type_ m = MetricType_HISTOGRAM
                ∧ Exists short_counts metrics.
Proof.
  destruct metrics as [|m rest].
  - split; [by left|]. intros _. by eexists.
  - rewrite translateMetrics_spec.
    pose proof (series_blocks_panics (is_histogram (Type_ m)) (m :: rest)) as Hb.
    destruct (series_blocks _ _ _) as [ts|msg].
    + split; [by intros [? ?]|]. intros [?|(m' & rest' & [= <- <-] & Ht & Hs)]; [done|].
      destruct (proj2 Hb) as [? ?]; [|done]. by rewrite Ht.
    + split; [|intros _; by eexists]. intros _. right. exists m, rest.
      destruct (proj1 Hb) as [Hh Hs]; [by eexists|].
      split; [done|]. split; [|done]. by destruct (Type_ m).
Qed.

(** X6.  [translateMetrics] panics in two cases and no other: on an empty
    group, and on a group whose first snapshot is a histogram and in which
    some snapshot has no more counts than bounds.  A group led by a
    counter or a gauge is written whatever its snapshots hold. *)
Theorem translateMetrics_panics (w : string) (metrics : list MetricSnapshot) :
  panics (translateMetrics FormatFloat order w metrics)
  ↔ metrics = []
    ∨ ∃ m rest, metrics = m :: rest ∧ Type_ m = MetricType_HISTOGRAM
                ∧ Exists short_counts metrics.
Proof. apply translateMetrics_panics_iff. Qed.

Lemma groups_panics (grp : string → list MetricSnapshot) (names : list string)
    (w : string) :
  panics (foldl (λ r name, w ← r; translateMetrics FormatFloat order w (grp name))
                (Ok w) names)
  ↔ ∃ name, name ∈ names ∧ panics (translateMetrics FormatFloat order "" (grp name)).
Proof.
  revert w. induction names as [|name names IH]; intros w.
  - split; [by intros [? ?]|]. intros (? & H & _). by apply elem_of_nil in H.
  - cbn [foldl]. rewrite result_bind_Ok, translateMetrics_frame.
    destruct (translateMetrics FormatFloat order "" (grp name)) as [t|msg] eqn:Ht.
    + rewrite result_bind_Ok, IH. split.
      * intros (n & Hn & Hp). exists n. split; [by right|done].
      * intros (n & Hn & Hp). apply elem_of_cons in Hn as [->|Hn].
        -- rewrite Ht in Hp. by destruct Hp.
        -- by exists n.
    + cbn.
      rewrite (foldl_Panic (λ w name, translateMetrics FormatFloat order w (grp name))).
      split; [|intros _; by eexists]. intros _. exists name.
      split; [by left|]. rewrite Ht. by eexists.
Qed.

Lemma translate_panics_iff (w : string) (ms : list MetricSnapshot) :
  panics (translateMetricsToPrometheusTextFormat FormatFloat order w ms).2
  ↔ ∃ name m rest,
      group_of name (SliceStable snapshot_less ms) = m :: rest
      ∧ Type_ m = MetricType_HISTOGRAM
      ∧ Exists short_counts (m :: rest).
Proof.
  rewrite translate_spec. cbn [snd]. rewrite groups_panics. split.
  - intros (name & Hname & Hp). apply translateMetrics_panics_iff in Hp.
    destruct Hp as [Hnil|(m & rest & Hg & Ht & Hs)].
    + rewrite <- (group_names_Permutation _ _ (SliceStable_Permutation ms))
        in Hname.
      apply group_of_member in Hname as (m & rest & Hg & _). congruence.
    + exists name, m, rest. by rewrite <- Hg.
  - intros (name & m & rest & Hg & Ht & Hs). exists name. split.
    + apply OrderClaims.group_names_elem. exists m. split.
      * rewrite <- (SliceStable_Permutation ms).
        assert (Hm : m ∈ group_of name (SliceStable snapshot_less ms))
          by (rewrite Hg; left).
        unfold group_of in Hm. by apply list_elem_of_filter in Hm as [_ ?].
      * assert (Hm : m ∈ group_of name (SliceStable snapshot_less ms))
          by (rewrite Hg; left).
        unfold group_of in Hm. by apply list_elem_of_filter in Hm as [? _].
    + apply translateMetrics_panics_iff. right. exists m, rest. by rewrite Hg.
Qed.

(** X7.  The encoder panics exactly when, among the snapshots of one
    name, the one that comes first by id is a histogram and some snapshot
    of that name has no more counts than bounds.  In particular it does
    not panic on a list without histograms, nor on a list in which every
    snapshot has more counts than bounds. *)
Theorem translate_panics (w : string) (ms : list MetricSnapshot) :
  (panics (translateMetricsToPrometheusTextFormat FormatFloat order w ms).2
   ↔ ∃ name m rest,
       group_of name (SliceStable snapshot_less ms) = m :: rest
       ∧ Type_ m = MetricType_HISTOGRAM
       ∧ Exists short_counts (m :: rest))
  ∧ ((∀ m, m ∈ ms → Type_ m ≠ MetricType_HISTOGRAM) →
     ¬ panics (translateMetricsToPrometheusTextFormat FormatFloat order w ms).2)
  ∧ ((∀ m, m ∈ ms → ¬ short_counts m) →
     ¬ panics (translateMetricsToPrometheusTextFormat FormatFloat order w ms).2).
Proof.
  pose proof (translate_panics_iff w ms) as Hiff.
  split; [exact Hiff|]. split.
  - intros Hno Hp. apply Hiff in Hp as (name & m & rest & Hg & Ht & _).
    apply (Hno m); [|done]. rewrite <- (SliceStable_Permutation ms).
    assert (Hm : m ∈ group_of name (SliceStable snapshot_less ms))
      by (rewrite Hg; left).
    unfold group_of in Hm. by apply list_elem_of_filter in Hm as [_ ?].
  - intros Hno Hp. apply Hiff in Hp as (name & m & rest & Hg & _ & Hs).
    apply Exists_exists in Hs as (x & Hx & Hshort). apply (Hno x); [|done].
    rewrite <- (SliceStable_Permutation ms). rewrite <- Hg in Hx.
    unfold group_of in Hx. by apply list_elem_of_filter in Hx as [_ ?].
Qed.

End Frame.

Lemma filter_none {A : Type} (P : A → Prop) `{∀ x, Decision (P x)} (l : list A) :
  Forall (λ x, ¬ P x) l → filter P l = [].
Proof.
  induction 1 as [|x l Hx _ IH]; [done|]. by rewrite filter_cons, decide_False.
Qed.

Lemma filter_all {A : Type} (P : A → Prop) `{∀ x, Decision (P x)} (l : list A) :
  Forall P l → filter P l = l.
Proof.
  induction 1 as [|x l Hx _ IH]; [done|].
  by rewrite filter_cons, decide_True, IH.
Qed.

(** In a sorted slice the snapshots of the least name come first. *)
Lemma sorted_split_least (name : string) (l : list MetricSnapshot) :
  StronglySorted snapshot_le l →
  Forall (λ m, Name m = name ∨ string_lt name (Name m)) l →
  l = group_of name l ++ filter (λ m, Name m ≠ name) l.
Proof.
  induction 1 as [|x l Hl IH Hx]; intros Hnames; [done|].
  apply Forall_cons in Hnames as [Hxn Hnames].
  rewrite group_of_cons, (filter_cons (λ m, Name m ≠ name)).
  destruct (decide (Name x = name)) as [Heq|Hne].
  - rewrite decide_False by (intros ?; done). cbn [app]. f_equal. by apply IH.
  - rewrite decide_True by done.
    destruct Hxn as [?|Hlt]; [done|].
    assert (Hall : Forall (λ m, Name m ≠ name) l).
    { eapply Forall_impl; [exact Hx|]. intros y Hxy Hy.
      unfold snapshot_le in Hxy. rewrite Hy in Hxy.
      unfold string_lt in Hlt. destruct Hxy as [Hxy|[Hxy _]].
      - by rewrite (ltb_asym _ _ Hxy) in Hlt.
      - by rewrite Hxy, ltb_irrefl in Hlt. }
    unfold group_of.
    rewrite (filter_none (λ m, Name m = name) l)
      by (eapply Forall_impl; [exact Hall|]; intros y Hy ?; done).
    by rewrite (filter_all _ l Hall).
Qed.

Lemma StronglySorted_filter {A : Type} (R : A → A → Prop) (P : A → Prop)
    `{∀ x, Decision (P x)} (l : list A) :
  StronglySorted R l → StronglySorted R (filter P l).
Proof.
  induction 1 as [|x l Hl IH Hx]; [constructor|].
  rewrite filter_cons. destruct (decide (P x)); [|done].
  constructor; [done|]. apply Forall_forall. intros y Hy.
  apply list_elem_of_filter in Hy as [_ Hy]. rewrite Forall_forall in Hx. auto.
Qed.

Lemma sorted_groups_concat (names : list string) :
  ∀ l : list MetricSnapshot,
    StronglySorted string_lt names →
    StronglySorted snapshot_le l →
    (∀ m, m ∈ l → Name m ∈ names) →
    concat (map (λ name, group_of name l) names) = l.
Proof.
  induction names as [|name names IH]; intros l Hnames Hl Hin.
  - destruct l as [|m l]; [done|].
    specialize (Hin m ltac:(left)). by apply elem_of_nil in Hin.
  - apply StronglySorted_cons in Hnames as [Hleast Hnames]. cbn [map concat].
    assert (Hsplit : l = group_of name l ++ filter (λ m, Name m ≠ name) l).
    { apply sorted_split_least; [done|]. apply Forall_forall. intros m Hm.
      specialize (Hin m Hm). apply elem_of_cons in Hin as [?|Hin]; [by left|].
      right. rewrite Forall_forall in Hleast. by apply Hleast. }
    set (rest := filter (λ m, Name m ≠ name) l) in *.
    assert (Hrest : concat (map (λ name0, group_of name0 l) names) = rest).
    { trans (concat (map (λ n, group_of n rest) names)); [|apply IH].
      + f_equal. apply map_ext_in. intros n Hn%list_elem_of_In.
        rewrite Hsplit at 1. unfold group_of at 1. rewrite filter_app.
        rewrite (filter_none (λ m, Name m = n) (group_of name l)); [done|].
        apply Forall_forall. intros m Hm.
        unfold group_of in Hm. apply list_elem_of_filter in Hm as [-> _].
        intros ->. rewrite Forall_forall in Hleast. specialize (Hleast _ Hn).
        unfold string_lt in Hleast. by rewrite ltb_irrefl in Hleast.
      + done.
      + by apply StronglySorted_filter.
      + intros m Hm. subst rest. apply list_elem_of_filter in Hm as [Hne Hm].
        specialize (Hin m Hm). apply elem_of_cons in Hin as [?|?]; done. }
    rewrite Hrest. by rewrite <- Hsplit.
Qed.

(** X8.  Grouping the sorted slice by name and walking the names in
    ascending order loses nothing and repeats nothing: the groups, one
    after the other, are the sorted slice itself.  So every snapshot is
    written once, and the series appear by name and then id over the
    whole output. *)
Theorem groups_are_the_sorted_slice (ms : list MetricSnapshot) :
  concat (map (λ name, group_of name (SliceStable snapshot_less ms))
              (group_names ms))
  = SliceStable snapshot_less ms
  ∧ concat (map (λ name, group_of name (SliceStable snapshot_less ms))
                (group_names ms)) ≡ₚ ms
  ∧ ∀ name, name ∈ group_names ms →
            group_of name (SliceStable snapshot_less ms) ≠ [].
Proof.
  assert (Heq : concat (map (λ name, group_of name (SliceStable snapshot_less ms))
                            (group_names ms))
                = SliceStable snapshot_less ms).
  { apply sorted_groups_concat.
    - apply OrderClaims.group_names_ascending.
    - apply SliceStable_sorted.
    - intros m Hm. apply OrderClaims.group_names_elem. exists m. split; [|done].
      by rewrite <- (SliceStable_Permutation ms). }
  split; [exact Heq|]. split.
  - rewrite Heq. apply SliceStable_Permutation.
  - intros name Hname.
    rewrite <- (group_names_Permutation _ _ (SliceStable_Permutation ms)) in Hname.
    apply group_of_member in Hname as (m & rest & Hg & _). by rewrite Hg.
Qed.

(** X9.  A scrape is all or nothing, and it does not depend on the order
    in which Go walks its maps: [HttpHandler] either appends to the
    response the whole text the encoder writes on an empty buffer, or,
    when the encoder panics, leaves the response as it was. *)
Theorem HttpHandler_all_or_nothing (FormatFloat : float64 → string)
    (o o' : MapOrder) (snapshot : list MetricSnapshot) (body : string) :
  HttpHandler FormatFloat o' snapshot body = HttpHandler FormatFloat o snapshot body
  ∧ match (translateMetricsToPrometheusTextFormat FormatFloat o "" snapshot).2 with
    | Ok text => HttpHandler FormatFloat o snapshot body = (body +:+ text, Ok ())
    | Panic msg => HttpHandler FormatFloat o snapshot body = (body, Panic msg)
    end
  ∧ (panics (HttpHandler FormatFloat o snapshot body).2
     ↔ (HttpHandler FormatFloat o snapshot body).1 = body
       ∧ ∃ name m rest,
           group_of name (SliceStable snapshot_less snapshot) = m :: rest
           ∧ Type_ m = MetricType_HISTOGRAM
           ∧ Exists short_counts (m :: rest)).
Proof.
  split; [|split].
  - unfold HttpHandler. by rewrite (translate_order FormatFloat o' o).
  - unfold HttpHandler. by destruct (_.2).
  - rewrite <- (translate_panics_iff FormatFloat o "" snapshot).
    unfold HttpHandler.
    destruct (translateMetricsToPrometheusTextFormat FormatFloat o "" snapshot).2
      as [text|msg]; cbn [fst snd].
    + split; [by intros [? ?]|]. by intros [_ [? ?]].
    + split; [|intros _; by eexists]. intros _. split; [done|by eexists].
Qed.

End EncoderProperties.

(** ** More on the registry of complex maps *)

Module RegistryProperties.
Import StringFacts Examples ComplexMapClaims.

Lemma append_cancel_r (a b s : string) : a +:+ s = b +:+ s → a = b.
Proof.
  revert b. induction a as [|c a IH]; intros [|c' b] Heq.
  - done.
  - apply (f_equal String.length) in Heq.
    rewrite append_nil_l, append_cons in Heq. cbn [String.length] in Heq.
    rewrite EscaperProperties.length_append in Heq. lia.
  - apply (f_equal String.length) in Heq.
    rewrite append_nil_l, append_cons in Heq. cbn [String.length] in Heq.
    rewrite EscaperProperties.length_append in Heq. lia.
  - rewrite !append_cons in Heq. injection Heq as -> Heq. f_equal. by apply IH.
Qed.

(** What a call leaves of the registry and of the engine's maps. *)
Lemma call_grows (op : Op) (σ : World) :
  (∃ more, metricMaps (call σ op) = metricMaps σ ++ more)
  ∧ (∀ name m, complexMetrics σ !! name = Some m →
               complexMetrics (call σ op) !! name = Some m).
Proof.
  destruct op; cbn [call];
    try (split; [by exists []; rewrite app_nil_r|done]);
    try (split; [by eexists|done]).
  - split.
    + destruct (complexMetrics σ !! name) as [m|] eqn:Hname.
      * rewrite (RegisterComplexMap_known _ _ _ _ _ Hname).
        exists []. by rewrite app_nil_r.
      * rewrite (RegisterComplexMap_new _ _ _ _ Hname). by eexists.
    + intros n m Hm. by apply RegisterComplexMap_keeps.
  - unfold complexMap_Add, emit.
    destruct (PrimFloat.ltb _ _), (negb _), (0 <=? h);
      (split; [by exists []; rewrite app_nil_r|done]).
Qed.


Lemma bundle_registered_grows (σ σ' : World) (name : string) (m : complexMap)
    (more : list MapConfig) :
  metricMaps σ' = metricMaps σ ++ more →
  bundle_registered σ name m → bundle_registered σ' name m.
Proof.
  intros Hmore (help & buckets & Hc & Hg & Hh). exists help, buckets.
  rewrite Hmore. repeat split; by apply lookup_app_l_Some.
Qed.

Lemma call_registered (op : Op) (σ : World) :
  (∀ name m, complexMetrics σ !! name = Some m → bundle_registered σ name m) →
  ∀ name m, complexMetrics (call σ op) !! name = Some m →
            bundle_registered (call σ op) name m.
Proof.
  intros Hinv name m Hm.
  destruct (call_grows op σ) as [[more Hmore] _].
  assert (Hold : complexMetrics σ !! name = Some m →
                 bundle_registered (call σ op) name m).
  { intros H. eapply bundle_registered_grows; [exact Hmore|by apply Hinv]. }
  destruct op; cbn [call] in *; try (by apply Hold).
  - destruct (complexMetrics σ !! name0) as [m0|] eqn:Hname.
    + rewrite (RegisterComplexMap_known _ _ _ _ _ Hname) in Hm |- *.
      cbn [snd complexMetrics] in Hm. rewrite (RegisterComplexMap_known _ _ _ _ _ Hname) in Hold.
      by apply Hold.
    + rewrite (RegisterComplexMap_new _ _ _ _ Hname) in Hm |- *.
      rewrite (RegisterComplexMap_new _ _ _ _ Hname) in Hold.
      cbn [snd complexMetrics] in Hm.
      destruct (decide (name0 = name)) as [->|Hne].
      * rewrite lookup_insert_eq in Hm. injection Hm as <-.
        exists help, buckets. cbn [snd metricMaps counter gauge histogram].
        rewrite !lookup_app_r by lia.
        rewrite Nat.sub_diag.
        replace (S (length (metricMaps σ)) - length (metricMaps σ))%nat
          with 1%nat by lia.
        replace (S (S (length (metricMaps σ))) - length (metricMaps σ))%nat
          with 2%nat by lia.
        done.
      * rewrite lookup_insert_ne in Hm by done. by apply Hold.
  - apply Hold. revert Hm. unfold complexMap_Add, emit.
    by destruct (PrimFloat.ltb _ _), (negb _), (0 <=? h).
Qed.

Lemma run_registered (ops : list Op) (σ : World) :
  (∀ name m, complexMetrics σ !! name = Some m → bundle_registered σ name m) →
  ∀ name m, complexMetrics (run ops σ) !! name = Some m →
            bundle_registered (run ops σ) name m.
Proof.
  revert σ. induction ops as [|op ops IH]; intros σ Hinv; [done|].
  unfold run. cbn [foldl]. fold (run ops (call σ op)).
  by apply IH, call_registered.
Qed.

Lemma registry_invariant (ops : list Op) (name : string) (m : complexMap) :
  complexMetrics (run ops empty_world) !! name = Some m →
  bundle_registered (run ops empty_world) name m.
Proof.
  apply run_registered. intros n m' H. cbn [empty_world complexMetrics] in H.
  by rewrite lookup_empty in H.
Qed.

Lemma registered_disjoint (σ : World) (n1 n2 : string) (m1 m2 : complexMap)
    (k : MetricMap) :
  bundle_registered σ n1 m1 → bundle_registered σ n2 m2 →
  k ∈ handles m1 → k ∈ handles m2 → n1 = n2.
Proof.
  intros (h1 & b1 & Hc1 & Hg1 & Hh1) (h2 & b2 & Hc2 & Hg2 & Hh2) Hk1 Hk2.
  unfold handles in *.
  repeat (apply elem_of_cons in Hk1 as [->|Hk1]); [| | |by apply elem_of_nil in Hk1];
    (repeat (apply elem_of_cons in Hk2 as [Hk2|Hk2]); [| | |by apply elem_of_nil in Hk2]);
    rewrite Hk2 in *; simplify_eq; by eapply append_cancel_r.
Qed.

(** X10.  Whatever a program calls on the package, starting with nothing
    registered, the registry stays well formed: the three handles of every
    stored bundle are maps the engine holds, a counter, a gauge and a
    histogram map under the names [name_counter], [name_gauge] and
    [name_histogram]; they are three different maps; and the bundles of
    two different names share no map. *)
Theorem registry_well_formed (ops : list Op) :
  let σ := run ops empty_world in
  (∀ name m, complexMetrics σ !! name = Some m →
     bundle_registered σ name m ∧ NoDup (handles m))
  ∧ (∀ n1 n2 m1 m2 k,
       complexMetrics σ !! n1 = Some m1 → complexMetrics σ !! n2 = Some m2 →
       n1 ≠ n2 → k ∈ handles m1 → k ∉ handles m2).
Proof.
  cbn zeta.
  assert (Hinv : ∀ name m, complexMetrics (run ops empty_world) !! name = Some m →
                           bundle_registered (run ops empty_world) name m).
  { apply run_registered. intros name m H. cbn [empty_world complexMetrics] in H.
    by rewrite lookup_empty in H. }
  split.
  - intros name m Hm. split; [by apply Hinv|].
    destruct (Hinv name m Hm) as (help & buckets & Hc & Hg & Hh).
    unfold handles. repeat constructor; rewrite ?not_elem_of_cons;
      repeat split; try apply not_elem_of_nil; intros Heq;
      rewrite Heq in *; simplify_eq.
  - intros n1 n2 m1 m2 k H1 H2 Hne Hk1 Hk2. apply Hne.
    eapply registered_disjoint; eauto.
Qed.

Lemma RegisterComplexMap_stored (name help : string) (buckets : list float64)
    (σ : World) :
  complexMetrics (RegisterComplexMap name help buckets σ).2 !! name
  = Some (RegisterComplexMap name help buckets σ).1.
Proof.
  destruct (complexMetrics σ !! name) as [m|] eqn:Hname.
  - by rewrite (RegisterComplexMap_known _ _ _ _ _ Hname).
  - rewrite (RegisterComplexMap_new _ _ _ _ Hname). cbn [fst snd complexMetrics].
    apply lookup_insert_eq.
Qed.






Lemma run_cons (op : Op) (ops : list Op) (σ : World) :
  run (op :: ops) σ = run ops (call σ op).
Proof. reflexivity. Qed.

Lemma run_app (pre post : list Op) (σ : World) :
  run (pre ++ post) σ = run post (run pre σ).
Proof. unfold run. apply foldl_app. Qed.



(** X15.  Updates through a registered bundle reach the maps of that
    bundle and no other: every call [complexMap.Add] makes on the engine,
    with the bundle [RegisterComplexMap] returned for a name, is an [Add]
    on the map registered as the name's counter or gauge map, or a [Put]
    on the map registered as its histogram map; there are at most three
    such calls. *)
Theorem complexMap_Add_lands_on_bundle (ops : list Op) (name help : string)
    (buckets : list float64) (n i : string) (c g : float64) (h : Z) :
  let registered := RegisterComplexMap name help buckets (run ops empty_world) in
  ∃ calls,
    trace (complexMap_Add registered.1 n i c g h registered.2)
    = trace registered.2 ++ calls
    ∧ Forall (lands_on_bundle registered.2 name) calls
    ∧ (length calls ≤ 3)%nat.
Proof.
  cbn zeta.
  set (r := RegisterComplexMap name help buckets (run ops empty_world)).
  assert (Hreg : bundle_registered r.2 name r.1).
  { pose proof (RegisterComplexMap_stored name help buckets (run ops empty_world))
      as Hstored. fold r in Hstored.
    assert (Hrun : r.2 = run (ops ++ [CallRegisterComplexMap name help buckets])
                             empty_world) by (by rewrite run_app).
    rewrite Hrun in Hstored |- *.
    by apply (registry_invariant (ops ++ [CallRegisterComplexMap name help buckets])). }
  destruct Hreg as (help0 & buckets0 & Hc & Hg & Hh).
  exists ((if PrimFloat.ltb 0%float c
           then [EvAdd (counter r.1) {| Label_Name := n; Label_Item := i |} c]
           else [])
          ++ (if negb (PrimFloat.eqb g 0%float)
              then [EvAdd (gauge r.1) {| Label_Name := n; Label_Item := i |} g]
              else [])
          ++ (if 0 <=? h
              then [EvPut (histogram r.1) {| Label_Name := n; Label_Item := i |}
                      (Seconds h)]
              else [])).
  split; [|split].
  - unfold complexMap_Add, emit.
    destruct (PrimFloat.ltb 0%float c), (negb (PrimFloat.eqb g 0%float)), (0 <=? h);
      cbn [trace app]; rewrite <- ?app_assoc, ?app_nil_r; reflexivity.
  - repeat (apply Forall_app; split);
      [destruct (PrimFloat.ltb 0%float c)
      |destruct (negb (PrimFloat.eqb g 0%float))
      |destruct (0 <=? h)];
      repeat constructor; eexists; (split; [eassumption|]); auto.
  - destruct (PrimFloat.ltb 0%float c), (negb (PrimFloat.eqb g 0%float)), (0 <=? h);
      cbn; lia.
Qed.

End RegistryProperties.

(** ** More on buckets and counts *)

Module CountProperties.
Import Buckets BucketsFacts StringFacts OrderFacts WriterFacts SeriesFacts
  GroupFacts Examples.

(** X13.  Asking [NewBuckets] for fewer thresholds gives the first ones of
    the longer sequence: the thresholds do not depend on how many are
    asked for. *)
Theorem NewBuckets_prefix (start factor : float64) (count count' : Z)
    (buckets' : list float64) :
  1 ≤ count → count ≤ count' →
  NewBuckets start factor count' = Ok buckets' →
  NewBuckets start factor count = Ok (take (Z.to_nat count) buckets').
Proof.
  intros Hcount Hle. unfold NewBuckets.
  destruct (Z.ltb_spec count' 1) as [?|_]; [lia|].
  destruct (Z.ltb_spec count 1) as [?|_]; [lia|].
  destruct (PrimFloat.leb start 0%float); [done|].
  destruct (PrimFloat.leb factor 1%float); [done|].
  intros [= <-]. f_equal.
  rewrite !fill_geometric, !length_replicate.
  rewrite <- fmap_take, take_seq. f_equal. f_equal. lia.
Qed.

Lemma NewBuckets_prefix_witness :
  NewBuckets 1%float 2%float 3 = Ok (take 3 [1; 2; 4; 8; 16]%float).
Proof.
  apply (NewBuckets_prefix 1%float 2%float 3 5 [1; 2; 4; 8; 16]%float);
    [lia|lia|reflexivity].
Defined.

Lemma Z_sum_app (l1 l2 : list Z) : Z_sum (l1 ++ l2) = Z_sum l1 + Z_sum l2.
Proof.
  unfold Z_sum. induction l1 as [|x l1 IH]; cbn [app foldr]; [lia|].
  rewrite IH. lia.
Qed.

Lemma Z_sum_nonneg (l : list Z) : Forall (λ c, 0 ≤ c) l → 0 ≤ Z_sum l.
Proof.
  unfold Z_sum. induction 1 as [|x l Hx _ IH]; cbn [foldr]; lia.
Qed.

Lemma Z_sum_take_le (l : list Z) (k : nat) :
  Forall (λ c, 0 ≤ c) l → 0 ≤ Z_sum (take k l) ≤ Z_sum l.
Proof.
  intros Hpos. rewrite <- (take_drop k l) at 3. rewrite Z_sum_app.
  pose proof (Z_sum_nonneg (take k l) (Forall_take _ _ _ Hpos)).
  pose proof (Z_sum_nonneg (drop k l) (Forall_drop _ _ _ Hpos)). lia.
Qed.

(** X14.  While the counts of a histogram snapshot are not negative and
    add up to less than [2^64], the running count of the bucket loop does
    not wrap around: after the first [k] bounds it is the sum of the
    first [k] counts, it never decreases from one bound to the next, and
    it stays within the sum of all the counts. *)
Theorem running_count_exact (FormatFloat : float64 → string) (o : MapOrder)
    (w : string) (metric : MetricSnapshot) (k : nat) :
  Forall (λ c, 0 ≤ c) (Counts metric) →
  Z_sum (Counts metric) < uint64_modulus →
  (k ≤ length (Bounds metric))%nat →
  (length (Bounds metric) < length (Counts metric))%nat →
  ∃ st,
    buckets_loop FormatFloat o metric (Labels metric) 0 (take k (Bounds metric))
      {| bs_w := w; bs_count := 0; bs_hasInf := false |} = Ok st
    ∧ bs_count st = Z_sum (take k (Counts metric))
    ∧ (∀ j, (j ≤ k)%nat → Z_sum (take j (Counts metric)) ≤ bs_count st)
    ∧ bs_count st ≤ Z_sum (Counts metric).
Proof.
  intros Hpos Hsum Hk Hlen.
  rewrite buckets_loop_spec; [|cbn; lia|done].
  rewrite length_take, Nat.min_l by done. cbn [Nat.add].
  rewrite (proj2 (Nat.leb_le _ _)) by lia.
  eexists. split; [reflexivity|]. cbn [bs_count].
  assert (Hexact : uint64_sum (take k (Counts metric))
                   = Z_sum (take k (Counts metric))).
  { apply HistogramClaims.uint64_sum_exact; [by apply Forall_take|].
    pose proof (Z_sum_take_le (Counts metric) k Hpos). lia. }
  rewrite Hexact. split; [done|]. split.
  - intros j Hj.
    replace (take j (Counts metric)) with (take j (take k (Counts metric)))
      by (rewrite take_take; f_equal; lia).
    apply Z_sum_take_le. by apply Forall_take.
  - by apply Z_sum_take_le.
Qed.

Lemma running_count_exact_witness :
  ∃ st,
    buckets_loop fmt map_order_id latency_a (Labels latency_a) 0
      (take 2 (Bounds latency_a))
      {| bs_w := ""; bs_count := 0; bs_hasInf := false |} = Ok st
    ∧ bs_count st = Z_sum (take 2 (Counts latency_a))
    ∧ (∀ j, (j ≤ 2)%nat → Z_sum (take j (Counts latency_a)) ≤ bs_count st)
    ∧ bs_count st ≤ Z_sum (Counts latency_a).
Proof.
  apply (running_count_exact fmt map_order_id "" latency_a 2).
  - repeat constructor; cbn; lia.
  - reflexivity.
  - cbn. lia.
  - cbn. lia.
Defined.

(** X16.  Scraping again: on the slice a first call has sorted, a second
    call leaves the slice as it is and writes the same text as the first.
    The sorting in place does not disturb later calls. *)
Theorem translate_twice (FormatFloat : float64 → string) (o : MapOrder)
    (w : string) (ms : list MetricSnapshot) :
  let first := translateMetricsToPrometheusTextFormat FormatFloat o w ms in
  translateMetricsToPrometheusTextFormat FormatFloat o w first.1 = first.
Proof.
  cbn zeta. rewrite !translate_spec. cbn [fst].
  rewrite (SliceStable_sorted_id _ (SliceStable_sorted ms)).
  by rewrite (group_names_Permutation _ _ (SliceStable_Permutation ms)).
Qed.

End CountProperties.

(** ** Groups, lines and the mutex *)

Section SortFilter.
Context {A : Type} (less : A → A → bool).
Context (P : A → Prop) `{∀ x, Decision (P x)}.
Hypothesis less_asym : ∀ x y, less x y = true → less y x = false.
Hypothesis not_after_trans :
  ∀ x y z, not_after less x y → not_after less y z → not_after less x z.

Lemma insert_back_filter (x : A) (r : list A) :
  StronglySorted (flip (not_after less)) r →
  filter P (insert_back less x r)
  = if decide (P x) then insert_back less x (filter P r) else filter P r.
Proof.
  induction 1 as [|y r Hr IH Hy]; cbn [insert_back].
  - rewrite filter_cons, filter_nil. by destruct (decide (P x)).
  - destruct (less x y) eqn:Hxy.
    + rewrite (filter_cons _ y), IH, (filter_cons _ y).
      destruct (decide (P x)), (decide (P y)); try done.
      cbn [insert_back]. by rewrite Hxy.
    + rewrite (filter_cons _ x), !(filter_cons _ y).
      destruct (decide (P x)); [|done].
      destruct (decide (P y)); [cbn [insert_back]; by rewrite Hxy|].
      symmetry. apply insert_back_last. apply Forall_forall. intros z Hz.
      apply list_elem_of_filter in Hz as [_ Hz].
      rewrite Forall_forall in Hy. specialize (Hy z Hz). unfold flip in Hy.
      by apply (not_after_trans z y x).
Qed.

Lemma insertion_loop_filter (data acc : list A) :
  StronglySorted (flip (not_after less)) acc →
  filter P (foldl (λ rprefix x, insert_back less x rprefix) acc data)
  = foldl (λ rprefix x, insert_back less x rprefix) (filter P acc) (filter P data).
Proof.
  revert acc. induction data as [|x data IH]; intros acc Hacc; [done|].
  cbn [foldl]. rewrite IH by (by apply insert_back_sorted).
  rewrite insert_back_filter by done. rewrite (filter_cons _ x).
  by destruct (decide (P x)).
Qed.

(** Sorting and then picking is picking and then sorting. *)
Lemma insertionSort_filter (data : list A) :
  filter P (insertionSort less data) = insertionSort less (filter P data).
Proof.
  unfold insertionSort. rewrite filter_reverse. f_equal.
  rewrite insertion_loop_filter by constructor. by rewrite filter_nil.
Qed.

End SortFilter.

Module LineProperties.
Import StringFacts OrderFacts WriterFacts SeriesFacts GroupFacts Examples.

Lemma fold_collect (FormatFloat : float64 → string) (o : MapOrder)
    (grp : string → list MetricSnapshot) (names : list string) (u : string) :
  foldl (λ r name, w ← r; translateMetrics FormatFloat o w (grp name)) (Ok u) names
  = ts ← collect (map (λ name, translateMetrics FormatFloat o "" (grp name)) names);
    Ok (u +:+ String.concat "" ts).
Proof.
  revert u. induction names as [|name names IH]; intros u.
  - cbn. by rewrite append_nil_r.
  - cbn [foldl map collect]. rewrite result_bind_Ok.
    rewrite (EncoderProperties.translateMetrics_frame FormatFloat o u).
    destruct (translateMetrics FormatFloat o "" (grp name)) as [t|msg].
    + rewrite !result_bind_Ok, IH.
      destruct (collect _) as [ts|msg]; [|done].
      rewrite !result_bind_Ok. by rewrite concat_empty_cons, append_assoc.
    + cbn.
      by rewrite (EncoderProperties.foldl_Panic
                    (λ w name, translateMetrics FormatFloat o w (grp name))).
Qed.

Lemma group_of_sorted (name : string) (ms : list MetricSnapshot) :
  group_of name (SliceStable snapshot_less ms)
  = SliceStable snapshot_less (group_of name ms).
Proof.
  unfold group_of, SliceStable. apply insertionSort_filter.
  - apply snapshot_less_asym.
  - apply snapshot_not_after_trans.
Qed.

(** X17.  The text is made name by name: it is the buffer followed by one
    text for each name, in ascending order of the names, and the text of a
    name is that of the snapshots of this name alone, sorted by id.
    Snapshots of other names, added or taken away, do not change it. *)
Theorem translate_name_by_name (FormatFloat : float64 → string) (o : MapOrder)
    (w : string) (ms : list MetricSnapshot) :
  (translateMetricsToPrometheusTextFormat FormatFloat o w ms).2
  = (ts ← collect
            (map (λ name, translateMetrics FormatFloat o ""
                            (SliceStable snapshot_less (group_of name ms)))
                 (group_names ms));
     Ok (w +:+ String.concat "" ts))
  ∧ ∀ name ms',
      group_of name ms' = group_of name ms →
      group_of name (translateMetricsToPrometheusTextFormat FormatFloat o w ms').1
      = group_of name (translateMetricsToPrometheusTextFormat FormatFloat o w ms).1.
Proof.
  split.
  - rewrite translate_spec. cbn [snd].
    rewrite (fold_collect FormatFloat o
               (λ name, group_of name (SliceStable snapshot_less ms))).
    f_equal. f_equal. apply map_ext. intros name. by rewrite group_of_sorted.
  - intros name ms' Hsame. rewrite !translate_spec. cbn [fst].
    by rewrite !group_of_sorted, Hsame.
Qed.

Lemma count_newlines_app (a b : string) :
  count_newlines (a +:+ b) = (count_newlines a + count_newlines b)%nat.
Proof.
  induction a as [|c a IH]; [reflexivity|].
  rewrite append_cons. cbn [count_newlines]. rewrite IH. lia.
Qed.

Lemma count_newlines_escape (s : string) : count_newlines (escape s) = 0%nat.
Proof.
  induction s as [|c s IH]; [reflexivity|].
  cbn [escape]. rewrite count_newlines_app, IH.
  destruct (EscaperProperties.escape_char_cases c)
    as [[-> ->]|[[-> ->]|[[-> ->]|[Hc ->]]]]; [reflexivity..|].
  cbn [count_newlines]. unfold is_special in Hc.
  apply orb_false_elim in Hc as [Hc _]. apply orb_false_elim in Hc as [_ Hc].
  by rewrite Hc.
Qed.

Lemma count_newlines_joined (sep : string) (items : list string) :
  count_newlines sep = 0%nat →
  Forall (λ x, count_newlines x = 0%nat) items →
  count_newlines (joined sep items) = 0%nat.
Proof.
  intros Hsep Hitems. revert sep Hsep.
  induction Hitems as [|x items Hx _ IH]; intros sep Hsep; [reflexivity|].
  cbn [joined]. rewrite !count_newlines_app, Hsep, Hx. by rewrite IH.
Qed.

(** X18.  A series is written on one line: where the metric name, the
    suffix, the label names and the two formatted numbers hold no newline,
    [writeEntry] appends a text without a newline and then one newline,
    whatever the label values hold. *)
Theorem writeEntry_one_line (FormatFloat : float64 → string) (o : MapOrder)
    (w metricName : string) (value : float64) (suffix : string)
    (labels : gmap string string) (extraLabelName : string)
    (extraLabelItem : float64) :
  count_newlines metricName = 0%nat →
  count_newlines suffix = 0%nat →
  (∀ l v, labels !! l = Some v → count_newlines l = 0%nat) →
  count_newlines extraLabelName = 0%nat →
  count_newlines (FormatFloat value) = 0%nat →
  count_newlines (FormatFloat extraLabelItem) = 0%nat →
  ∃ line,
    writeEntry FormatFloat o w metricName value suffix labels
      extraLabelName extraLabelItem
    = w +:+ line +:+ nl
    ∧ count_newlines line = 0%nat.
Proof.
  intros Hname Hsuffix Hlabels Hextra Hvalue Hitem.
  rewrite writeEntry_text. unfold entry_text.
  exists (metricName +:+ suffix
          +:+ label_block FormatFloat labels extraLabelName extraLabelItem
          +:+ " " +:+ FormatFloat value).
  split; [by rewrite !append_assoc|].
  rewrite !count_newlines_app, Hname, Hsuffix, Hvalue. cbn [count_newlines].
  assert (count_newlines
            (label_block FormatFloat labels extraLabelName extraLabelItem) = 0%nat)
    as ->; [|reflexivity].
  unfold label_block.
  assert (Hitems : Forall (λ x, count_newlines x = 0%nat)
                     (label_items FormatFloat labels extraLabelName extraLabelItem)).
  { unfold label_items. apply Forall_app. split.
    - apply Forall_forall. intros x Hx.
      apply list_elem_of_fmap in Hx as (l & -> & Hl).
      unfold label_names in Hl. rewrite sort_Strings_Permutation in Hl.
      apply list_elem_of_fmap in Hl as ([l' v] & -> & Hl).
      apply elem_of_map_to_list in Hl. cbn [fst].
      unfold label_pair. rewrite !count_newlines_app, count_newlines_escape.
      by rewrite (Hlabels _ _ Hl).
    - destruct (String.eqb extraLabelName ""); repeat constructor.
      unfold extra_pair. rewrite !count_newlines_app, Hextra, Hitem. reflexivity. }
  destruct (label_items _ _ _ _) as [|x items]; [reflexivity|].
  rewrite count_newlines_app, count_newlines_joined; done.
Qed.

(** A bucket line whose label values hold a newline, a backslash and a
    double quote. *)
Lemma writeEntry_one_line_witness :
  ∃ line,
    writeEntry fmt map_order_id "" "latency" 3%float "_bucket" escaped_labels
      "le" 2%float
    = "" +:+ line +:+ nl
    ∧ count_newlines line = 0%nat.
Proof.
  apply (writeEntry_one_line fmt map_order_id "" "latency" 3%float "_bucket"
           escaped_labels "le" 2%float); try reflexivity.
  intros l v Hl. unfold escaped_labels in Hl.
  destruct (decide (l = "path")) as [->|Hpath]; [reflexivity|].
  destruct (decide (l = "note")) as [->|Hnote]; [reflexivity|].
  rewrite !lookup_insert_ne, lookup_empty in Hl by done. discriminate Hl.
Defined.

Lemma mutex_scan_app (held : bool) (t1 t2 : list Event) :
  mutex_scan held (t1 ++ t2)
  = match mutex_scan held t1 with
    | Some held' => mutex_scan held' t2
    | None => None
    end.
Proof.
  revert held. induction t1 as [|e t1 IH]; intros held; [done|].
  cbn [app mutex_scan]. by destruct e, held.
Qed.

Lemma call_segment (op : Op) (σ : World) :
  ∃ segment, trace (call σ op) = trace σ ++ segment
             ∧ mutex_scan false segment = Some false.
Proof.
  destruct op; cbn [call]; try (by eexists [_]).
  - destruct (complexMetrics σ !! name) as [m|] eqn:Hname.
    + rewrite (ComplexMapClaims.RegisterComplexMap_known _ _ _ _ _ Hname).
      by eexists.
    + rewrite (ComplexMapClaims.RegisterComplexMap_new _ _ _ _ Hname).
      by eexists.
  - unfold complexMap_Add, emit.
    destruct (PrimFloat.ltb _ _), (negb _), (0 <=? h); cbn [trace];
      rewrite <- ?app_assoc; first [by eexists | by exists []; rewrite app_nil_r].
Qed.

(** X19.  The mutex is used as it should be, whatever a program calls:
    every [RegisterComplexMap] takes [mu] when it is free and releases it
    before it returns, the registry is read and written only while [mu]
    is held, and no series is updated while it is held; after the program
    [mu] is free. *)
Theorem mutex_discipline (ops : list Op) :
  mutex_scan false (trace (run ops empty_world)) = Some false.
Proof.
  assert (Hrun : ∀ σ, mutex_scan false (trace σ) = Some false →
                      mutex_scan false (trace (run ops σ)) = Some false).
  { induction ops as [|op ops IH]; intros σ Hσ; [done|].
    rewrite RegistryProperties.run_cons. apply IH.
    destruct (call_segment op σ) as (segment & -> & Hseg).
    by rewrite mutex_scan_app, Hσ. }
  by apply Hrun.
Qed.

End LineProperties.
